(** * bluesky-scraper: a shallow embedding of [pull.py] and [categorize.py]

    The scraper logs into a social network, fetches the recent posts of a
    list of accounts, keeps the original text posts, asks a language model
    for a category and a controversy score, drops the posts whose URI was
    already seen and appends the rest to a spreadsheet.

    Layout of this development:
    - Module [Py]: the Python built-ins the program relies on (strings as
      sequences of code points, [str.strip], substring test, [int()],
      parsed JSON values);
    - Module [Data]: exceptions, the objects of the social network, rows,
      events, worlds and the environment of a run;
    - Module [Eff]: the state-and-exception monad in which the effectful
      functions are written;
    - Module [Categorize]: [categorize.py];
    - Module [Pull]: [pull.py];
    - Module [Obs]: the vocabulary of the statements;
    - Module [Scenario]: concrete environments and feeds;
    - Module [More]: vocabulary and environments of the further
      properties;
    - then the lemmas and theorems.

    What is outside the model: [time.sleep] and the write of the state
    file always succeed, and every exception is an instance of
    [Exception] (an interrupt is not one). *)

From Stdlib Require Import ZArith NArith QArith List String Ascii Lia.
From stdpp Require Import base gmap sets list.

Set Warnings "-register-all,-clear-no-such-hyp".

(* ===================================================================== *)
(** * Python built-ins *)
(* ===================================================================== *)

Module Py.

(** A Python [str] is a sequence of Unicode code points. *)
Definition str := list N.

(** A literal of the source, given as an ASCII string. *)
Fixpoint lit (s : string) : str :=
  match s with
  | EmptyString => []
  | String a s' => N_of_ascii a :: lit s'
  end.

(** [str.isspace] on one character: the code points CPython lists as
    white space (bidirectional type WS, B or S, or category Zs). *)
Definition isspace (c : N) : bool :=
  (((9 <=? c) && (c <=? 13))               (* \t \n \v \f \r *)
   || ((28 <=? c) && (c <=? 32))           (* FS GS RS US and the space *)
   || (c =? 133) || (c =? 160)             (* NEL, no-break space *)
   || (c =? 5760)                          (* ogham space mark *)
   || ((8192 <=? c) && (c <=? 8202))       (* en quad .. hair space *)
   || (c =? 8232) || (c =? 8233)           (* line and paragraph separator *)
   || (c =? 8239) || (c =? 8287)           (* narrow nbsp, medium math space *)
   || (c =? 12288))%N.                     (* ideographic space *)

(** [s.lstrip()], [s.rstrip()] and [s.strip()] with no argument. *)
Fixpoint lstrip (s : str) : str :=
  match s with
  | [] => []
  | c :: s' => if isspace c then lstrip s' else s
  end.

Definition rstrip (s : str) : str := reverse (lstrip (reverse s)).

Definition strip (s : str) : str := rstrip (lstrip s).

(** Truth value of a string: [not s] holds exactly for the empty string. *)
Definition truthy (s : str) : bool :=
  match s with [] => false | _ :: _ => true end.

(** [sub in s]: [sub] occurs in [s] as a contiguous slice. *)
Fixpoint startswith (s sub : str) : bool :=
  match sub, s with
  | [], _ => true
  | _ :: _, [] => false
  | a :: sub', b :: s' => (a =? b)%N && startswith s' sub'
  end.

Fixpoint contains (sub s : str) : bool :=
  startswith s sub ||
  match s with
  | [] => false
  | _ :: s' => contains sub s'
  end.

(** [re.sub('[...]+', '', s)] for a character class: every maximal run of
    characters of the class is replaced by nothing, that is, every
    character of the class is removed. *)
Definition re_sub_class (cls : N -> bool) (s : str) : str :=
  List.filter (fun c => negb (cls c)) s.

(** ** Parsed JSON, as [json.loads] returns it *)

(** Numbers are [int] or [float]; a finite float is given by its exact
    value, and [json.loads] also reads NaN and the two infinities. A
    [dict] is given by its items. *)
Inductive json : Type :=
  | JNull
  | JBool (b : bool)
  | JInt (z : Z)
  | JFloat (q : Q)
  | JNaN
  | JInf (negative : bool)
  | JStr (s : str)
  | JArr (items : list json)
  | JObj (items : list (str * json)).

Definition str_eqb (a b : str) : bool := bool_decide (a = b).

(** [d.get(key, default)] on the items of a dict. *)
Fixpoint dict_get (items : list (str * json)) (key : str) (default : json) : json :=
  match items with
  | [] => default
  | (k, v) :: rest => if str_eqb k key then v else dict_get rest key default
  end.

(** ** [int(x)] *)

Definition is_digit (c : N) : bool := ((48 <=? c) && (c <=? 57))%N.

(** Digits with single underscores between them, read in base ten; [acc]
    is the value read so far and [after_digit] says whether the previous
    character was a digit (an underscore is only legal there, and must be
    followed by a digit). *)
Fixpoint digits (s : str) (acc : Z) (after_digit : bool) : option Z :=
  match s with
  | [] => if after_digit then Some acc else None
  | c :: s' =>
      if is_digit c then digits s' (10 * acc + Z.of_N (c - 48)) true
      else if (c =? 95)%N && after_digit then
        match s' with
        | d :: _ => if is_digit d then digits s' acc false else None
        | [] => None
        end
      else None
  end.

(** [int(s)] for a string: surrounding white space is ignored, one sign
    is allowed, then come the digits. [None] stands for [ValueError].
    Only the ASCII digits are read as digits here; CPython also accepts
    the decimal digits of other scripts. *)
Definition int_of_str (s : str) : option Z :=
  match strip s with
  | [] => None
  | c :: s' =>
      if (c =? 45)%N then Z.opp <$> digits s' 0 false
      else if (c =? 43)%N then digits s' 0 false
      else digits (c :: s') 0 false
  end.

(** What [int(x)] raises when it does not return. *)
Inductive int_error := IntTypeError | IntValueError | IntOverflowError.

(** [int(x)] for a JSON value: an [int] is returned as it is, a [bool] is
    0 or 1, a finite [float] is truncated toward zero, a string is
    parsed; NaN raises [ValueError], an infinity [OverflowError], and
    [None], lists and dicts raise [TypeError]. *)
Definition int (x : json) : int_error + Z :=
  match x with
  | JInt z => inr z
  | JBool b => inr (if b then 1 else 0)%Z
  | JFloat q => inr (Z.quot (Qnum q) (Zpos (Qden q)))
  | JNaN => inl IntValueError
  | JInf _ => inl IntOverflowError
  | JStr s => match int_of_str s with Some z => inr z | None => inl IntValueError end
  | JNull | JArr _ | JObj _ => inl IntTypeError
  end.

End Py.

(* ===================================================================== *)
(** * Data, worlds and effects *)
(* ===================================================================== *)

Module Data.
Import Py.

(** ** Exceptions

    Every exception of the model is an instance of Python's [Exception];
    [exn_msg] is what [str(e)] gives. *)
Inductive exn_class :=
  | PlainException      (* raise Exception(...) *)
  | RequestError        (* raised by a client library for a failed remote call *)
  | JSONDecodeError
  | AttributeError
  | TypeError
  | ValueError
  | OverflowError
  | OSError.

Record exn := Exception { exn_cls : exn_class; exn_msg : str }.

Inductive outcome (A : Type) :=
  | Val (a : A)
  | Exc (e : exn).
Arguments Val {A} a.
Arguments Exc {A} e.

(** ** The social network's objects *)

(** A post record. An attribute that [hasattr] may find missing is an
    [option]; an attribute whose value may be [None] is an [option] too,
    so [reply : option (option _)] is [None] when the record has no
    attribute [reply], [Some None] when the attribute is [None]. *)
Record post_record := {
  reply : option (option str);
  text : option (option str);
  embed : option (option str);
}.

Record post_view := { record : post_record; uri : str }.

(** One item of an author feed: [reason] is set for a repost. *)
Record feed_view_post := { reason : option str; post : post_view }.

(** What a remote call returns: an object that may carry the attributes
    [did] and [feed]. Such an object is truthy. *)
Record response := { did : option str; feed : option (list feed_view_post) }.

Inductive request :=
  | Login (username password : str)
  | ResolveHandle (handle : str)
  | GetAuthorFeed (actor : str) (limit : Z).

(** ** Post rows: [timestamp, text, uri, handle, category, controversy] *)
Record row := {
  row_timestamp : str;
  row_text : str;
  row_uri : str;
  row_handle : str;
  row_category : json;
  row_controversy : Z;
}.

(** ** The model's answer to one completion request *)
Inductive completion :=
  | CallFails (e : exn)     (* the request raises, or the answer has no content *)
  | NotJSON                 (* [json.loads(content)] raises [JSONDecodeError] *)
  | Parsed (result : json). (* [json.loads(content)] *)

(** ** The file [scraped_posts.json] *)
Inductive file_state :=
  | Missing                  (* [os.path.exists] is false *)
  | Unreadable (e : exn)     (* [open] or the read raises [e] *)
  | Garbage                  (* text that is no JSON document *)
  | Document (data : json).  (* a JSON document *)

(** ** Log lines, one constructor per logging call of the source *)
Inductive log_msg :=
  | LogRateLimit (delay : Z) (attempt : nat)
  | LogApiCallFailed (e : exn)
  | LogAppended (n : nat)
  | LogSheetsFailed (e : exn)
  | LogNoDid (handle : str)
  | LogFetching (handle did : str)
  | LogNoFeed (handle : str)
  | LogPostError (idx : nat) (handle : str) (e : exn)
  | LogNoUserList (e : exn)
  | LogLoggingIn
  | LogLoginFailed (e : exn)
  | LogNoUsers
  | LogSending (n : nat) (user : str)
  | LogNoNewPosts (user : str)
  | LogWaiting (secs : Z)
  | LogFinished
  | PrintCategorizationFailed (e : exn).

(** ** Observable events, in the order they happen *)
Inductive event :=
  | Call (req : request)          (* a request to the social network *)
  | Chat (prompt : str)           (* a completion request *)
  | Append (rows : list row)      (* a spreadsheet append request *)
  | Save (uris : gset str)        (* [scraped_posts.json] rewritten *)
  | Sleep (secs : Z)
  | Log (m : log_msg).

(** ** Worlds

    [ticks] counts the consultations of the outside world so far, [trace]
    holds the events, most recent first. *)
Record world := {
  ticks : nat;
  trace : list event;
  scraped_posts : file_state;
}.

(** ** The environment of one run: configuration and the outside world.

    The answer of a remote service may depend on the request and on the
    moment it is made; the moment is the tick. *)
Record env := {
  USERNAME : str;
  PASSWORD : str;
  POST_LIMIT : Z;
  DELAY_BETWEEN_USERS : Z;
  OPENAI_API_KEY : str;
  atproto : nat -> request -> outcome response;
  chat_completions : nat -> str -> completion;
  sheets_append : nat -> list row -> outcome unit;
  wall_clock : nat -> str;
  user_list_file : outcome (list str);   (* the lines of the user list *)
}.

End Data.

Module Eff.
Import Py Data.

(** State and exceptions: a computation maps a world to an outcome and a
    world. An exception keeps the effects that happened before it. *)
Definition M (A : Type) : Type := world -> outcome A * world.

#[global] Instance M_ret : MRet M := fun A (a : A) w => (Val a, w).

#[global] Instance M_bind : MBind M := fun A B (f : A -> M B) (m : M A) w =>
  match m w with
  | (Val a, w') => f a w'
  | (Exc e, w') => (Exc e, w')
  end.

Definition raise {A} (e : exn) : M A := fun w => (Exc e, w).

(** [try: body except Exception as e: handler(e)] *)
Definition try_except {A} (body : M A) (handler : exn -> M A) : M A := fun w =>
  match body w with
  | (Val a, w') => (Val a, w')
  | (Exc e, w') => handler e w'
  end.

Definition lift {A} (o : outcome A) : M A := fun w => (o, w).

Definition tick : M nat := fun w =>
  (Val (ticks w),
   {| ticks := S (ticks w); trace := trace w; scraped_posts := scraped_posts w |}).

Definition emit (e : event) : M unit := fun w =>
  (Val tt,
   {| ticks := ticks w; trace := e :: trace w; scraped_posts := scraped_posts w |}).

Definition read_file : M file_state := fun w => (Val (scraped_posts w), w).

Definition write_file (f : file_state) : M unit := fun w =>
  (Val tt, {| ticks := ticks w; trace := trace w; scraped_posts := f |}).

Definition sleep (secs : Z) : M unit := emit (Sleep secs).
Definition log (m : log_msg) : M unit := emit (Log m).

(** [obj.get(key, default)]: [obj] has a method [get] only when it is a
    dict. *)
Definition get (obj : json) (key : str) (default : json) : M json :=
  match obj with
  | JObj items => mret (dict_get items key default)
  | _ => raise (Exception AttributeError (lit "object has no attribute 'get'"))
  end.

(** [int(x)] with its exceptions. *)
Definition int_ (x : json) : M Z :=
  match int x with
  | inr z => mret z
  | inl IntTypeError => raise (Exception TypeError (lit "int() argument must be a string, a bytes-like object or a real number"))
  | inl IntValueError => raise (Exception ValueError (lit "invalid literal for int() with base 10"))
  | inl IntOverflowError => raise (Exception OverflowError (lit "cannot convert float infinity to integer"))
  end.

End Eff.

(* ===================================================================== *)
(** * categorize.py *)
(* ===================================================================== *)

Module Categorize.
Import Py Data Eff.

Definition CATEGORIES : list str :=
  [ lit "Politics & Government"; lit "Business & Finance"; lit "Technology";
    lit "Health"; lit "Science & Environment"; lit "Sports";
    lit "Entertainment"; lit "Crime & Law"; lit "Lifestyle";
    lit "World News"; lit "Education"; lit "Opinion & Editorials" ].

(** The module-level [client]: [None] until [set_openai_api_key] ran. *)
Inductive openai_client := OpenAI (api_key : str).

Definition set_openai_api_key (api_key : str) : option openai_client :=
  Some (OpenAI api_key).

(** [sep.join(parts)] *)
Fixpoint join (sep : str) (parts : list str) : str :=
  match parts with
  | [] => []
  | [p] => p
  | p :: rest => p ++ sep ++ join sep rest
  end.

Definition nl : str := [10%N].
Definition dq : str := [34%N].

(** The prompt of [categorize_text], an f-string around [text]. *)
Definition prompt (text : str) : str :=
  nl ++ lit "Given the following news post, do the following:" ++ nl ++ nl
  ++ lit "1. Categorize it into one of these categories: "
  ++ join (lit ", ") CATEGORIES ++ lit "." ++ nl
  ++ lit "2. Rate how controversial it is on a scale from 1 to 10 (1 = not controversial, 10 = extremely controversial)."
  ++ nl ++ nl
  ++ lit "Respond in this JSON format:" ++ nl
  ++ lit "{" ++ dq ++ lit "category" ++ dq ++ lit ": " ++ dq ++ lit "your-category" ++ dq
  ++ lit ", " ++ dq ++ lit "controversy" ++ dq ++ lit ": number}" ++ nl ++ nl
  ++ lit "Post:" ++ nl
  ++ dq ++ text ++ dq ++ nl.

Definition categorize_text (E : env) (client : option openai_client)
    (text : str) : M (json * Z) :=
  match client with
  | None =>
      raise (Exception PlainException
               (lit "OpenAI client not initialized. Call set_openai_api_key() first."))
  | Some _ =>
      try_except
        (n ← tick;
         emit (Chat (prompt text));;
         result ← match chat_completions E n (prompt text) with
                  | CallFails e => raise e
                  | NotJSON => raise (Exception JSONDecodeError (lit "Expecting value"))
                  | Parsed result => mret result
                  end;
         category ← get result (lit "category") (JStr (lit "Uncategorized"));
         c ← get result (lit "controversy") (JInt 1);
         controversy ← int_ c;
         mret (category, controversy))
        (fun e =>
           log (PrintCategorizationFailed e);;
           mret (JStr (lit "Uncategorized"), 1%Z))
  end.

End Categorize.

(* ===================================================================== *)
(** * pull.py *)
(* ===================================================================== *)

Module Pull.
Import Py Data Eff.

Definition DELAY_BETWEEN_API_CALLS : Z := 3.

(** Line 36: the classifier's client is set when the module is loaded,
    before [main] runs. *)
Definition client (OPENAI_API_KEY : str) : option Categorize.openai_client :=
  Categorize.set_openai_api_key OPENAI_API_KEY.

(** ** [safe_request] *)

(** ["429" in str(e) or "Too Many Requests" in str(e)] *)
Definition is_rate_limit (e : exn) : bool :=
  contains (lit "429") (exn_msg e) || contains (lit "Too Many Requests") (exn_msg e).

(** What one turn of the [for attempt in range(max_retries)] loop ends in. *)
Inductive turn (A : Type) :=
  | Return (result : A)        (* [return result] *)
  | Continue (delay : Z)       (* next attempt, with the new delay *)
  | Break.                     (* [break] *)
Arguments Return {A} result.
Arguments Continue {A} delay.
Arguments Break {A}.

Definition attempt_once {A} (api_call_fn : M A) (attempt : nat) (delay : Z)
    : M (turn A) :=
  try_except
    (result ← api_call_fn;
     sleep DELAY_BETWEEN_API_CALLS;;
     mret (Return result))
    (fun e =>
       if is_rate_limit e then
         log (LogRateLimit delay (attempt + 1));;
         sleep delay;;
         mret (Continue (Z.min (delay * 2) 120))
       else
         log (LogApiCallFailed e);;
         mret Break).

(** The loop, with [remaining] attempts left; [None] is the [None] the
    function returns after the loop. *)
Fixpoint safe_request_loop {A} (api_call_fn : M A) (remaining attempt : nat)
    (delay : Z) : M (option A) :=
  match remaining with
  | O => mret None
  | S remaining' =>
      t ← attempt_once api_call_fn attempt delay;
      match t with
      | Return result => mret (Some result)
      | Continue delay' => safe_request_loop api_call_fn remaining' (S attempt) delay'
      | Break => mret None
      end
  end.

Definition safe_request {A} (api_call_fn : M A) (max_retries : nat)
    (initial_delay : Z) : M (option A) :=
  safe_request_loop api_call_fn max_retries 0 initial_delay.

(** The defaults of the keyword arguments. *)
Definition default_max_retries : nat := 5.
Definition default_initial_delay : Z := 5.

(** A method of the atproto client, applied to its arguments. *)
Definition api (E : env) (req : request) : M response :=
  n ← tick;
  emit (Call req);;
  lift (atproto E n req).

(** ** [clean_text] *)

Definition astral (c : N) : bool := ((65536 <=? c) && (c <=? 1114111))%N.
Definition non_ascii (c : N) : bool := negb (c <=? 127)%N.

Definition clean_text (text : str) : str :=
  let text := re_sub_class astral text in
  let text := re_sub_class non_ascii text in
  strip text.

(** ** [send_to_google_sheets] *)

Definition send_to_google_sheets (E : env) (rows : list row) : M unit :=
  try_except
    (n ← tick;
     emit (Append rows);;
     lift (sheets_append E n rows);;
     log (LogAppended (length rows)))
    (fun e => log (LogSheetsFailed e)).

(** ** [load_existing_post_uris] and [save_post_uris] *)

Definition hashable (x : json) : bool :=
  match x with
  | JArr _ | JObj _ => false
  | _ => true
  end.

Definition strings_of (items : list json) : list str :=
  omap (fun x => match x with JStr s => Some s | _ => None end) items.

(** [set(x)]. A list must hold hashable values and a string gives its
    characters, a dict its keys; anything else is not iterable. The set
    is kept as the set of its strings: a number, a boolean or [None] in
    it is equal to no URI. *)
Definition set_ (x : json) : M (gset str) :=
  match x with
  | JArr items =>
      if forallb hashable items then mret (list_to_set (strings_of items))
      else raise (Exception TypeError (lit "unhashable type"))
  | JStr s => mret (list_to_set ((fun c => [c]) <$> s))
  | JObj items => mret (list_to_set (fst <$> items))
  | _ => raise (Exception TypeError (lit "object is not iterable"))
  end.

(** [except json.JSONDecodeError] lets every other exception through. *)
Definition except_JSONDecodeError {A} (body : M A) (handler : M A) : M A :=
  try_except body
    (fun e => match exn_cls e with
              | JSONDecodeError => handler
              | _ => raise e
              end).

(** [json.load(f)] on the opened file (a missing file is never opened). *)
Definition json_load (f : file_state) : M json :=
  match f with
  | Document data => mret data
  | Garbage | Missing => raise (Exception JSONDecodeError (lit "Expecting value"))
  | Unreadable e => raise e
  end.

Definition load_existing_post_uris : M (gset str) :=
  f ← read_file;
  match f with
  | Missing => mret ∅
  | Unreadable e => raise e      (* [open] is outside the [try] *)
  | _ =>
      except_JSONDecodeError
        (data ← json_load f;
         uris ← get data (lit "uris") (JArr []);
         set_ uris)
        (mret ∅)
  end.

(** [json.dump({"uris": list(uris)}, f, indent=2)] *)
Definition dump (uris : gset str) : file_state :=
  Document (JObj [(lit "uris", JArr (JStr <$> elements uris))]).

Definition save_post_uris (uris : gset str) : M unit :=
  emit (Save uris);;
  write_file (dump uris).

(** ** [get_posts_for_user] *)

Section Fetch.
Context (E : env).

(** The body of the [try] for one feed item; [rows] is the list built so
    far and the result is the list after this item ([continue] leaves it
    as it is). *)
Definition process_post (handle : str) (post_ : feed_view_post)
    (rows : list row) : M (list row) :=
  let record := record (post post_) in
  (* filter out reposts *)
  if bool_decide (reason post_ ≠ None) then mret rows else
  (* filter out replies *)
  if bool_decide (is_Some (reply record) ∧ reply record ≠ Some None) then mret rows else
  (* filter out textless or embed-only posts *)
  match text record with
  | None => mret rows
  | Some None =>
      raise (Exception AttributeError (lit "'NoneType' object has no attribute 'strip'"))
  | Some (Some raw) =>
      if negb (truthy (strip raw)) then mret rows else
      if bool_decide (is_Some (embed record)) && negb (truthy (strip raw)) then mret rows else
      let text := clean_text raw in
      n ← tick;
      let timestamp := wall_clock E n in
      let uri := uri (post post_) in
      '(category, controversy) ← Categorize.categorize_text E (client (OPENAI_API_KEY E)) text;
      mret (rows ++ [ {| row_timestamp := timestamp; row_text := text; row_uri := uri;
                         row_handle := handle; row_category := category;
                         row_controversy := controversy |} ])
  end.

(** One turn of the loop over the feed: [try: ... except Exception as e:
    logging.warning(...)]. *)
Definition process_item (handle : str) (idx : nat) (post_ : feed_view_post)
    (rows : list row) : M (list row) :=
  try_except (process_post handle post_ rows)
    (fun e => log (LogPostError idx handle e);; mret rows).

(** [for idx, post in enumerate(feed.feed, start=idx)] *)
Fixpoint process_feed (handle : str) (idx : nat) (items : list feed_view_post)
    (rows : list row) : M (list row) :=
  match items with
  | [] => mret rows
  | post_ :: rest =>
      rows' ← process_item handle idx post_ rows;
      process_feed handle (S idx) rest rows'
  end.

Definition get_posts_for_user (handle : str) : M (list row) :=
  profile ← safe_request (api E (ResolveHandle handle))
              default_max_retries default_initial_delay;
  match profile ≫= did with
  | None => log (LogNoDid handle);; mret []
  | Some did_ =>
      log (LogFetching handle did_);;
      feed_ ← safe_request (api E (GetAuthorFeed did_ (POST_LIMIT E)))
                default_max_retries default_initial_delay;
      match feed_ ≫= feed with
      | None => log (LogNoFeed handle);; mret []
      | Some items => process_feed handle 1 items []
      end
  end.

(** ** [get_user_list] *)

Definition get_user_list : M (list str) :=
  try_except
    (lines ← lift (user_list_file E);
     mret (strip <$> List.filter (fun line => truthy (strip line)) lines))
    (fun e => log (LogNoUserList e);; mret []).

(** ** [main] *)

(** Lines 176-180, the loop over the rows of one user: a row is new when
    its URI is not in [updated_uris], which grows as the loop goes. *)
Fixpoint filter_new (rows new_rows : list row) (updated_uris : gset str)
    : list row * gset str :=
  match rows with
  | [] => (new_rows, updated_uris)
  | row_ :: rest =>
      let uri := row_uri row_ in
      if bool_decide (uri ∉ updated_uris)
      then filter_new rest (new_rows ++ [row_]) ({[uri]} ∪ updated_uris)
      else filter_new rest new_rows updated_uris
  end.

(** The body of [for user in users], from the current [updated_uris] to
    the next. *)
Definition process_user (user : str) (updated_uris : gset str) : M (gset str) :=
  rows ← get_posts_for_user user;
  let '(new_rows, updated_uris) := filter_new rows [] updated_uris in
  (match new_rows with
   | _ :: _ =>
       log (LogSending (length new_rows) user);;
       send_to_google_sheets E new_rows;;
       save_post_uris updated_uris
   | [] => log (LogNoNewPosts user)
   end);;
  log (LogWaiting (DELAY_BETWEEN_USERS E));;
  sleep (DELAY_BETWEEN_USERS E);;
  mret updated_uris.

Fixpoint for_users (users : list str) (updated_uris : gset str) : M (gset str) :=
  match users with
  | [] => mret updated_uris
  | user :: rest =>
      updated_uris' ← process_user user updated_uris;
      for_users rest updated_uris'
  end.

Definition main : M unit :=
  logged_in ← try_except
                (log LogLoggingIn;;
                 safe_request (api E (Login (USERNAME E) (PASSWORD E)))
                   default_max_retries default_initial_delay;;
                 mret true)
                (fun e => log (LogLoginFailed e);; mret false);
  if negb logged_in then mret tt else
  users ← get_user_list;
  match users with
  | [] => log LogNoUsers
  | _ :: _ =>
      existing_uris ← load_existing_post_uris;
      let updated_uris := existing_uris in
      for_users users updated_uris;;
      log LogFinished
  end.

End Fetch.

End Pull.

(* ===================================================================== *)
(** * Vocabulary of the statements *)
(* ===================================================================== *)

Module Obs.
Import Py Data Eff Pull.

(** Only 7-bit ASCII characters. *)
Definition ascii_only (s : str) : Prop := Forall (fun c => (c <= 127)%N) s.

(** What a world has seen, in the order it happened. *)
Definition project {B} (f : event → option B) (w : world) : list B :=
  reverse (omap f (trace w)).

Definition calls : world → list request :=
  project (fun e => match e with Call r => Some r | _ => None end).
Definition slept : world → list Z :=
  project (fun e => match e with Sleep d => Some d | _ => None end).
Definition chats : world → list str :=
  project (fun e => match e with Chat p => Some p | _ => None end).
Definition sink_calls : world → list (list row) :=
  project (fun e => match e with Append rows => Some rows | _ => None end).
Definition saves : world → list (gset str) :=
  project (fun e => match e with Save uris => Some uris | _ => None end).
Definition logs : world → list log_msg :=
  project (fun e => match e with Log m => Some m | _ => None end).

(** The world after [n] more ticks and the events [es] (most recent
    first). *)
Definition push (es : list event) (n : nat) (w : world) : world :=
  {| ticks := n + ticks w; trace := es ++ trace w; scraped_posts := scraped_posts w |}.

(** A feed item is a repost, a reply, or has the text [raw]. *)
Definition is_repost (p : feed_view_post) : Prop := reason p ≠ None.
Definition is_reply (p : feed_view_post) : Prop :=
  ∃ parent, reply (record (post p)) = Some (Some parent).
Definition has_text (p : feed_view_post) (raw : str) : Prop :=
  text (record (post p)) = Some (Some raw).

(** Empty or made of white space only. *)
Definition blank (s : str) : Prop := Forall (fun c => isspace c = true) s.

(** The items [get_posts_for_user] makes a row of. *)
Definition kept (p : feed_view_post) : bool :=
  bool_decide (reason p = None)
  && negb (bool_decide (is_Some (reply (record (post p))) ∧ reply (record (post p)) ≠ Some None))
  && match text (record (post p)) with
     | Some (Some raw) => truthy (strip raw)
     | _ => false
     end.

(** The events that concern the sink and the seen-set: an append, a
    save, and the two log lines that say whether a user had new rows. *)
Definition outward (e : event) : option event :=
  match e with
  | Append _ | Save _ | Log (LogSending _ _) | Log (LogNoNewPosts _) => Some e
  | _ => None
  end.

(** What a run leaves behind: the state file and the outward events. *)
Definition durable (w : world) : file_state * list event :=
  (scraped_posts w, project outward w).

(** A computation preserves an observation of the world when running it
    never changes the observation, whether it returns or raises. *)
Definition preserves {A B} (obs : world → B) (m : M A) : Prop :=
  ∀ w, obs (m w).2 = obs w.

(** The users [get_user_list] reads: the non-blank lines, stripped. *)
Definition user_list (E : env) : list str :=
  match user_list_file E with
  | Val lines => strip <$> List.filter (fun line => truthy (strip line)) lines
  | Exc _ => []
  end.

(** Lines 165-192 of [main]: what follows the login. *)
Definition after_login (E : env) : M unit :=
  users ← get_user_list E;
  match users with
  | [] => log LogNoUsers
  | _ :: _ =>
      existing_uris ← load_existing_post_uris;
      for_users E users existing_uris;;
      log LogFinished
  end.

(** The network answers the two fetch requests, handle resolution and
    author feed, in the same way whenever they are made: as [net] does. *)
Definition stable_feed (E : env) (net : request → outcome response) : Prop :=
  ∀ n req, match req with
           | Login _ _ => True
           | _ => atproto E n req = net req
           end.

(** What [safe_request] makes of an answer that never changes. *)
Definition settled {A} (o : outcome A) : option A :=
  match o with
  | Val v => Some v
  | Exc _ => None
  end.

(** The URIs of the rows fetched for a handle from such a network. *)
Definition fetched_uris (net : request → outcome response) (limit : Z)
    (handle : str) : list str :=
  match settled (net (ResolveHandle handle)) ≫= did with
  | None => []
  | Some did_ =>
      match settled (net (GetAuthorFeed did_ limit)) ≫= feed with
      | None => []
      | Some items => (uri ∘ post) <$> List.filter kept items
      end
  end.

(** The line logged after a spreadsheet append, by its outcome. *)
Definition sheets_log (o : outcome unit) (n : nat) : log_msg :=
  match o with
  | Val _ => LogAppended n
  | Exc e => LogSheetsFailed e
  end.

(** The remote call fails with a rate-limit signal. *)
Definition rate_limited (o : outcome response) : Prop :=
  ∃ e, o = Exc e ∧ is_rate_limit e = true.

(** The delay of the [i]-th backoff wait: the initial delay, then its
    doubles, capped at 120 seconds. *)
Definition backoff (initial_delay : Z) (i : nat) : Z :=
  match i with
  | O => initial_delay
  | S _ => Z.min (initial_delay * 2 ^ Z.of_nat i) 120
  end.

(** One doubling of the delay, as line 59 does it. *)
Definition next_delay (delay : Z) : Z := Z.min (delay * 2) 120.

(** The world after [k] attempts that each hit the rate limit. *)
Fixpoint after_rate_limits (req : request) (attempt : nat) (delay : Z) (k : nat)
    (w : world) : world :=
  match k with
  | O => w
  | S k' =>
      after_rate_limits req (S attempt) (next_delay delay) k'
        (push [Sleep delay; Log (LogRateLimit delay (attempt + 1)); Call req] 1 w)
  end.

End Obs.

(* ===================================================================== *)
(** * Concrete runs *)
(* ===================================================================== *)

(** Small environments and worlds on which the statements below are
    tried. *)
Module Scenario.
Import Py Data Eff Pull Obs.

(** A run starts with no tick, no event and the given state file. *)
Definition start (f : file_state) : world :=
  {| ticks := 0; trace := []; scraped_posts := f |}.

Definition mk_env (net : nat → request → outcome response)
    (model : nat → str → completion) (sheets : nat → list row → outcome unit)
    (users : list str) : env :=
  {| USERNAME := lit "scraper.test"; PASSWORD := lit "app-password";
     POST_LIMIT := 10; DELAY_BETWEEN_USERS := 2; OPENAI_API_KEY := lit "sk-test";
     atproto := net; chat_completions := model; sheets_append := sheets;
     wall_clock := fun _ => lit "2024-01-01 00:00:00";
     user_list_file := Val users |}.

Definition answer (category : string) (controversy : json) : completion :=
  Parsed (JObj [(lit "category", JStr (lit category)); (lit "controversy", controversy)]).

Definition session : response := {| did := Some (lit "did:plc:me"); feed := None |}.
Definition profile : response := {| did := Some (lit "did:plc:alice"); feed := None |}.

Definition a_post (reason_ : option str) (reply_ : option (option str))
    (text_ : str) (uri_ : string) : feed_view_post :=
  {| reason := reason_;
     post := {| record := {| reply := reply_; text := Some (Some text_); embed := None |};
                uri := lit uri_ |} |}.

(** The feed of the end-to-end scenario: a repost, a reply and one
    original post. *)
Definition alice_feed : list feed_view_post :=
  [ a_post (Some (lit "repost")) (Some None) (lit "Reposted") "at://alice/1";
    a_post None (Some (Some (lit "at://bob/7"))) (lit "A reply") "at://alice/2";
    a_post None (Some None) (lit "Hello world") "at://alice/3" ].

(** A network that always answers. *)
Definition net_ok (items : list feed_view_post) (n : nat) (req : request)
    : outcome response :=
  match req with
  | Login _ _ => Val session
  | ResolveHandle _ => Val profile
  | GetAuthorFeed _ _ => Val {| did := None; feed := Some items |}
  end.

Definition too_many_requests : exn :=
  Exception RequestError (lit "Response(status_code=429, error='RateLimitExceeded')").
Definition bad_password : exn :=
  Exception RequestError (lit "Response(status_code=401, error='AuthenticationRequired')").
Definition quota_exceeded : exn :=
  Exception RequestError (lit "HttpError 403: The caller does not have permission").

(** A network whose first [k] answers are rate-limit errors. *)
Definition net_rate_limited (k : nat) (n : nat) (req : request) : outcome response :=
  if bool_decide (n < k) then Exc too_many_requests else net_ok alice_feed n req.

(** A network that refuses the login and answers everything else. *)
Definition net_login_refused (n : nat) (req : request) : outcome response :=
  match req with
  | Login _ _ => Exc bad_password
  | _ => net_ok alice_feed n req
  end.

Definition model_says (c : completion) (n : nat) (prompt : str) : completion := c.
Definition sheets_ok (n : nat) (rows : list row) : outcome unit := Val tt.
Definition sheets_down (n : nat) (rows : list row) : outcome unit := Exc quota_exceeded.

(** A post whose text is one emoji (U+1F600), and one whose text is one
    no-break space (U+00A0). *)
Definition emoji_post : feed_view_post :=
  a_post None (Some None) [128512%N] "at://alice/4".
Definition nbsp_post : feed_view_post :=
  a_post None (Some None) [160%N] "at://alice/5".

(** Two rows for one post, fetched a second apart. *)
Definition hello_row (timestamp_ : string) : row :=
  {| row_timestamp := lit timestamp_; row_text := lit "Hello world";
     row_uri := lit "at://alice/3"; row_handle := lit "alice.test";
     row_category := JStr (lit "Technology"); row_controversy := 7 |}.

Definition users : list str := [lit "alice.test"].

Definition env_ok : env :=
  mk_env (net_ok alice_feed) (model_says (answer "Technology" (JInt 7))) sheets_ok users.
Definition env_overrated : env :=
  mk_env (net_ok alice_feed) (model_says (answer "Technology" (JInt 15))) sheets_ok users.
Definition env_rate_limited : env :=
  mk_env (net_rate_limited 2) (model_says (answer "Technology" (JInt 7))) sheets_ok users.
Definition env_login_refused : env :=
  mk_env net_login_refused (model_says (answer "Technology" (JInt 7))) sheets_ok users.
Definition env_sheets_down : env :=
  mk_env (net_ok alice_feed) (model_says (answer "Technology" (JInt 7))) sheets_down users.

End Scenario.

(* ===================================================================== *)
(** * More vocabulary and concrete runs *)
(* ===================================================================== *)

Module More.
Import Py Data Eff Pull Obs.

(** An ASCII character that is no white space. *)
Definition solid (c : N) : bool := (c <=? 127)%N && negb (isspace c).

(** A row as [get_posts_for_user] builds it for a handle. *)
Definition row_of (handle : str) (r : row) : Prop :=
  row_handle r = handle ∧ ascii_only (row_text r) ∧ strip (row_text r) = row_text r.

(** A network on which a handle cannot be resolved. *)
Definition net_unknown_handle (n : nat) (req : request) : outcome response :=
  match req with
  | ResolveHandle _ =>
      Exc (Exception RequestError (lit "Response(status_code=400, error='Unable to resolve handle')"))
  | _ => Scenario.net_ok Scenario.alice_feed n req
  end.

Definition env_unknown_handle : env :=
  Scenario.mk_env net_unknown_handle
    (Scenario.model_says (Scenario.answer "Technology" (JInt 7)))
    Scenario.sheets_ok Scenario.users.

(** A user list that holds blank lines only. *)
Definition env_no_users : env :=
  Scenario.mk_env (Scenario.net_ok Scenario.alice_feed)
    (Scenario.model_says (Scenario.answer "Technology" (JInt 7)))
    Scenario.sheets_ok [lit " "; []; [9%N; 10%N]].

Definition permission_denied : exn := Exception OSError (lit "Permission denied").

(** The pacing delay after an answer, nothing after no result. *)
Definition pacing (o : outcome (option response)) : list Z :=
  match o with
  | Val (Some _) => [DELAY_BETWEEN_API_CALLS]
  | _ => []
  end.

End More.

(* ===================================================================== *)
(** * Properties *)
(* ===================================================================== *)

Import Py Data Eff Obs.

(** Unfolds the monad and its primitive operations. *)
Ltac unfold_eff :=
  unfold try_except, raise, lift, sleep, log, emit, tick, read_file, write_file,
    get, int_, mbind, mret, M_bind, M_ret in *;
  cbv beta iota zeta.

(** ** Stripping *)

Section Strip.

Lemma lstrip_head (s : str) (c : N) :
  head (lstrip s) = Some c → isspace c = false.
Proof.
  induction s as [|a s IH]; simpl; [done|].
  destruct (isspace a) eqn:Ha; [exact IH|].
  simpl. intros [= <-]. exact Ha.
Qed.

Lemma lstrip_fixed (s : str) :
  (∀ c, head s = Some c → isspace c = false) → lstrip s = s.
Proof.
  destruct s as [|a s]; simpl; [done|].
  intros H. by rewrite (H a eq_refl).
Qed.

Lemma lstrip_suffix (s : str) : lstrip s `suffix_of` s.
Proof.
  induction s as [|a s IH]; simpl; [done|].
  destruct (isspace a); [by apply suffix_cons_r | done].
Qed.

Lemma lstrip_snoc (s : str) (c : N) :
  isspace c = false → lstrip (s ++ [c]) = lstrip s ++ [c].
Proof.
  intros Hc. induction s as [|a s IH]; simpl.
  - by rewrite Hc.
  - destruct (isspace a); [exact IH | done].
Qed.

Lemma rstrip_cons (s : str) (c : N) :
  isspace c = false → rstrip (c :: s) = c :: rstrip s.
Proof.
  intros Hc. unfold rstrip.
  by rewrite reverse_cons, lstrip_snoc, reverse_snoc.
Qed.

Lemma rstrip_prefix (s : str) : rstrip s `prefix_of` s.
Proof.
  unfold rstrip. destruct (lstrip_suffix (reverse s)) as [k Hk].
  exists (reverse k). rewrite <- reverse_app, <- Hk. by rewrite reverse_involutive.
Qed.

Lemma rstrip_last (s : str) (c : N) :
  last (rstrip s) = Some c → isspace c = false.
Proof. unfold rstrip. rewrite last_reverse. apply lstrip_head. Qed.

Lemma rstrip_fixed (s : str) :
  (∀ c, last s = Some c → isspace c = false) → rstrip s = s.
Proof.
  intros H. unfold rstrip. rewrite lstrip_fixed.
  - apply reverse_involutive.
  - intros c Hc. apply H. by rewrite head_reverse in Hc.
Qed.

Lemma rstrip_head (s : str) (c : N) :
  (∀ a, head s = Some a → isspace a = false) →
  head (rstrip s) = Some c → isspace c = false.
Proof.
  destruct s as [|a s]; [done|].
  intros H. rewrite rstrip_cons by (by apply H).
  simpl. intros [= <-]. by apply H.
Qed.

Lemma strip_head (s : str) (c : N) :
  head (strip s) = Some c → isspace c = false.
Proof. apply rstrip_head, lstrip_head. Qed.

Lemma strip_last (s : str) (c : N) :
  last (strip s) = Some c → isspace c = false.
Proof. apply rstrip_last. Qed.

Lemma strip_sublist (s : str) : strip s `sublist_of` s.
Proof.
  unfold strip.
  destruct (rstrip_prefix (lstrip s)) as [k Hk].
  destruct (lstrip_suffix s) as [k' Hk'].
  rewrite Hk' at 2. apply sublist_inserts_l.
  rewrite Hk at 2. by apply sublist_inserts_r.
Qed.

Lemma strip_fixed (s : str) :
  (∀ c, head s = Some c → isspace c = false) →
  (∀ c, last s = Some c → isspace c = false) →
  strip s = s.
Proof.
  intros Hh Hl. unfold strip. rewrite (lstrip_fixed s Hh). by apply rstrip_fixed.
Qed.

Lemma strip_idemp (s : str) : strip (strip s) = strip s.
Proof. apply strip_fixed; [apply strip_head | apply strip_last]. Qed.

End Strip.

(** ** The text sanitizer *)

Section CleanText.
Import Pull.

Lemma re_sub_non_ascii_ascii (s : str) : ascii_only (re_sub_class non_ascii s).
Proof.
  unfold ascii_only, re_sub_class. apply List.Forall_forall. intros c Hc.
  apply List.filter_In in Hc as [_ Hc]. unfold non_ascii in Hc.
  rewrite negb_involutive in Hc. by apply N.leb_le.
Qed.

Lemma re_sub_class_fixed (cls : N → bool) (s : str) :
  Forall (fun c => cls c = false) s → re_sub_class cls s = s.
Proof.
  unfold re_sub_class. induction 1 as [|c s Hc _ IH]; simpl; [done|].
  by rewrite Hc, IH.
Qed.

Lemma ascii_not_astral (c : N) : (c <= 127)%N → astral c = false.
Proof. intros H. unfold astral. apply andb_false_iff. left. apply N.leb_gt. lia. Qed.

Lemma ascii_not_non_ascii (c : N) : (c <= 127)%N → non_ascii c = false.
Proof. intros H. unfold non_ascii. apply negb_false_iff. by apply N.leb_le. Qed.

Lemma ascii_only_sublist (s t : str) : s `sublist_of` t → ascii_only t → ascii_only s.
Proof.
  unfold ascii_only. rewrite !Forall_forall. intros Hst Ht c Hc.
  apply Ht. by eapply elem_of_sublist.
Qed.

Lemma clean_text_ascii (s : str) : ascii_only (clean_text s).
Proof.
  unfold clean_text. eapply ascii_only_sublist; [apply strip_sublist|].
  apply re_sub_non_ascii_ascii.
Qed.

(** A string that is already clean is left as it is. *)
Lemma clean_text_fixed (s : str) :
  ascii_only s →
  (∀ c, head s = Some c → isspace c = false) →
  (∀ c, last s = Some c → isspace c = false) →
  clean_text s = s.
Proof.
  intros Ha Hh Hl. unfold clean_text.
  rewrite !re_sub_class_fixed.
  - by apply strip_fixed.
  - eapply Forall_impl; [exact Ha|]. apply ascii_not_astral.
  - rewrite re_sub_class_fixed.
    + eapply Forall_impl; [exact Ha|]. apply ascii_not_non_ascii.
    + eapply Forall_impl; [exact Ha|]. apply ascii_not_astral.
Qed.

(** C9. [clean_text] is a function on all strings (it is defined by
    structural recursion, so it always returns); its result holds only
    7-bit ASCII characters, neither starts nor ends with a white-space
    character, and cleaning a second time changes nothing: on every
    string, hence on every string that is already clean. *)
Theorem clean_text_spec (s : str) :
  ascii_only (clean_text s)
  ∧ (∀ c, head (clean_text s) = Some c → isspace c = false)
  ∧ (∀ c, last (clean_text s) = Some c → isspace c = false)
  ∧ clean_text (clean_text s) = clean_text s.
Proof.
  assert (Hh : ∀ c, head (clean_text s) = Some c → isspace c = false)
    by (intros c; apply strip_head).
  assert (Hl : ∀ c, last (clean_text s) = Some c → isspace c = false)
    by (intros c; apply strip_last).
  repeat split; [apply clean_text_ascii | exact Hh | exact Hl |].
  apply clean_text_fixed; [apply clean_text_ascii | exact Hh | exact Hl].
Qed.

End CleanText.

(** ** The classifier *)

Section Classifier.
Import Categorize.

Lemma dict_get_missing (items : list (str * json)) (key : str) (default : json) :
  (∀ v, (key, v) ∉ items) → dict_get items key default = default.
Proof.
  induction items as [|[k v] items IH]; simpl; [done|].
  intros H. unfold str_eqb. case_bool_decide as Hk.
  - subst. exfalso. apply (H v). left.
  - apply IH. intros v' Hv'. apply (H v'). by right.
Qed.

(** With a client, [categorize_text] returns whatever the model does. *)
Lemma categorize_text_total (E : env) (k : openai_client) (text : str) (w : world) :
  ∃ category controversy,
    categorize_text E (Some k) text w
    = (Val (category, controversy),
       match chat_completions E (ticks w) (prompt text) with
       | Parsed (JObj items) =>
           match int (dict_get items (lit "controversy") (JInt 1)) with
           | inr _ => push [Chat (prompt text)] 1 w
           | inl IntTypeError =>
               push [Log (PrintCategorizationFailed (Exception TypeError (lit "int() argument must be a string, a bytes-like object or a real number")));
                     Chat (prompt text)] 1 w
           | inl IntValueError =>
               push [Log (PrintCategorizationFailed (Exception ValueError (lit "invalid literal for int() with base 10")));
                     Chat (prompt text)] 1 w
           | inl IntOverflowError =>
               push [Log (PrintCategorizationFailed (Exception OverflowError (lit "cannot convert float infinity to integer")));
                     Chat (prompt text)] 1 w
           end
       | Parsed _ =>
           push [Log (PrintCategorizationFailed (Exception AttributeError (lit "object has no attribute 'get'")));
                 Chat (prompt text)] 1 w
       | NotJSON =>
           push [Log (PrintCategorizationFailed (Exception JSONDecodeError (lit "Expecting value")));
                 Chat (prompt text)] 1 w
       | CallFails e => push [Log (PrintCategorizationFailed e); Chat (prompt text)] 1 w
       end).
Proof.
  unfold categorize_text. unfold_eff.
  destruct (chat_completions _ _ _) as [e| |[]]; cbv beta iota; try by eauto.
  destruct (int _) as [[]|z]; by eauto.
Qed.




End Classifier.

(** ** The resilient caller *)

Section SafeRequest.
Import Pull.

Lemma project_push {B} (f : event → option B) (es : list event) (n : nat) (w : world) :
  project f (push es n w) = project f w ++ reverse (omap f es).
Proof. unfold project, push. simpl. by rewrite omap_app, reverse_app. Qed.

Lemma calls_push (es : list event) (n : nat) (w : world) :
  calls (push es n w)
  = calls w ++ reverse (omap (fun e => match e with Call r => Some r | _ => None end) es).
Proof. apply project_push. Qed.

Lemma slept_push (es : list event) (n : nat) (w : world) :
  slept (push es n w)
  = slept w ++ reverse (omap (fun e => match e with Sleep d => Some d | _ => None end) es).
Proof. apply project_push. Qed.

Lemma next_delay_iter (initial_delay : Z) (i : nat) :
  Nat.iter i next_delay initial_delay = backoff initial_delay i.
Proof.
  induction i as [|i IH]; [done|].
  simpl Nat.iter. rewrite IH. unfold next_delay, backoff.
  destruct i as [|i].
  - change (2 ^ Z.of_nat 1)%Z with 2%Z. done.
  - rewrite (Nat2Z.inj_succ (S i)), Z.pow_succ_r by lia. lia.
Qed.

Section OneRequest.
Context (E : env) (req : request).

Lemma attempt_once_val (attempt : nat) (delay : Z) (w : world) (v : response) :
  atproto E (ticks w) req = Val v →
  attempt_once (api E req) attempt delay w
  = (Val (Return v), push [Sleep DELAY_BETWEEN_API_CALLS; Call req] 1 w).
Proof.
  intros H. unfold attempt_once, api. unfold_eff. simpl. by rewrite H.
Qed.

Lemma attempt_once_rate_limit (attempt : nat) (delay : Z) (w : world) (e : exn) :
  atproto E (ticks w) req = Exc e → is_rate_limit e = true →
  attempt_once (api E req) attempt delay w
  = (Val (Continue (next_delay delay)),
     push [Sleep delay; Log (LogRateLimit delay (attempt + 1)); Call req] 1 w).
Proof.
  intros H Hr. unfold attempt_once, api. unfold_eff. simpl.
  rewrite H. cbv beta iota. by rewrite Hr.
Qed.

Lemma attempt_once_error (attempt : nat) (delay : Z) (w : world) (e : exn) :
  atproto E (ticks w) req = Exc e → is_rate_limit e = false →
  attempt_once (api E req) attempt delay w
  = (Val Break, push [Log (LogApiCallFailed e); Call req] 1 w).
Proof.
  intros H Hr. unfold attempt_once, api. unfold_eff. simpl.
  rewrite H. cbv beta iota. by rewrite Hr.
Qed.

Lemma loop_unfold {A} (f : M A) (remaining attempt : nat) (delay : Z) (w : world) :
  safe_request_loop f (S remaining) attempt delay w =
  match attempt_once f attempt delay w with
  | (Val (Return result), w') => (Val (Some result), w')
  | (Val (Continue delay'), w') => safe_request_loop f remaining (S attempt) delay' w'
  | (Val Break, w') => (Val None, w')
  | (Exc e, w') => (Exc e, w')
  end.
Proof.
  simpl. unfold mbind, M_bind at 1.
  destruct (attempt_once f attempt delay w) as [[[]|] w']; reflexivity.
Qed.

(** [k] attempts that hit the rate limit leave the loop where it was,
    [k] attempts later. *)
Lemma loop_rate_limited (k : nat) : ∀ remaining attempt delay w,
  (∀ i, i < k → rate_limited (atproto E (ticks w + i) req)) →
  safe_request_loop (api E req) (k + remaining) attempt delay w
  = safe_request_loop (api E req) remaining (attempt + k) (Nat.iter k next_delay delay)
      (after_rate_limits req attempt delay k w).
Proof.
  induction k as [|k IH]; intros remaining attempt delay w Hk.
  - simpl. by rewrite Nat.add_0_r.
  - destruct (Hk 0) as (e & He & Hr); [lia|]. rewrite Nat.add_0_r in He.
    change (S k + remaining) with (S (k + remaining)).
    rewrite loop_unfold, (attempt_once_rate_limit _ _ _ e He Hr), IH.
    + simpl after_rate_limits. f_equal; [lia|]. by rewrite Nat.iter_succ_r.
    + intros i Hi. simpl. replace (S (ticks w + i)) with (ticks w + S i) by lia.
      apply Hk. lia.
Qed.

Lemma after_rate_limits_ticks (k : nat) : ∀ attempt delay w,
  ticks (after_rate_limits req attempt delay k w) = ticks w + k.
Proof.
  induction k as [|k IH]; intros; simpl; [lia|]. rewrite IH. simpl. lia.
Qed.

Lemma after_rate_limits_file (k : nat) : ∀ attempt delay w,
  scraped_posts (after_rate_limits req attempt delay k w) = scraped_posts w.
Proof. induction k as [|k IH]; intros; simpl; [done|]. by rewrite IH. Qed.

Lemma after_rate_limits_calls (k : nat) : ∀ attempt delay w,
  calls (after_rate_limits req attempt delay k w) = calls w ++ replicate k req.
Proof.
  induction k as [|k IH]; intros; simpl; [by rewrite app_nil_r|].
  rewrite IH, calls_push. by rewrite <- app_assoc.
Qed.

Lemma after_rate_limits_slept (k : nat) : ∀ attempt delay w,
  slept (after_rate_limits req attempt delay k w)
  = slept w ++ ((fun i => Nat.iter i next_delay delay) <$> seq 0 k).
Proof.
  induction k as [|k IH]; intros; simpl; [by rewrite app_nil_r|].
  rewrite IH, slept_push.
  rewrite <- app_assoc. f_equal. simpl. f_equal.
  rewrite <- fmap_S_seq, <- list_fmap_compose.
  apply list_fmap_ext. intros _ i _. unfold compose. by rewrite Nat.iter_succ_r.
Qed.

Lemma backoff_waits (initial_delay : Z) (k : nat) :
  (fun i => Nat.iter i next_delay initial_delay) <$> seq 0 k
  = backoff initial_delay <$> seq 0 k.
Proof. apply list_fmap_ext. intros _ i _. apply next_delay_iter. Qed.

End OneRequest.

(** Whatever the wrapped call does, [safe_request] returns. *)
Lemma safe_request_loop_returns {A} (f : M A) (remaining : nat) :
  ∀ attempt delay w, ∃ r, (safe_request_loop f remaining attempt delay w).1 = Val r.
Proof.
  induction remaining as [|remaining IH]; intros attempt delay w.
  - by exists None.
  - rewrite loop_unfold. unfold attempt_once. unfold_eff.
    destruct (f w) as [[v|e] w']; simpl; [by eauto|].
    destruct (is_rate_limit e); simpl; [apply IH | by eauto].
Qed.

(** C5. The contract of [safe_request] around a request to the network,
    from any world [w], for any bound [max_retries] and initial delay
    (the callers use 5 and 5):
    - [k < max_retries] rate-limit failures followed by an answer give
      that answer, after [k + 1] calls and [k] backoff waits of
      [initial_delay], [2 * initial_delay], ... capped at 120 seconds
      (followed by the pacing delay);
    - an error that is no rate-limit signal gives no result at once: the
      failed call is the last one and no wait follows it;
    - [max_retries] rate-limit failures give no result;
    - and no exception leaves [safe_request], whatever is wrapped. *)
Theorem safe_request_contract (E : env) (req : request) (max_retries : nat)
    (initial_delay : Z) (w : world) :
  let run := safe_request (api E req) max_retries initial_delay w in
  (∀ k, k < max_retries →
     (∀ i, i < k → rate_limited (atproto E (ticks w + i) req)) →
     (∀ v, atproto E (ticks w + k) req = Val v →
        run.1 = Val (Some v)
        ∧ calls run.2 = calls w ++ replicate (S k) req
        ∧ slept run.2
          = slept w ++ (backoff initial_delay <$> seq 0 k) ++ [DELAY_BETWEEN_API_CALLS])
     ∧ (∀ e, atproto E (ticks w + k) req = Exc e → is_rate_limit e = false →
        run.1 = Val None
        ∧ calls run.2 = calls w ++ replicate (S k) req
        ∧ slept run.2 = slept w ++ (backoff initial_delay <$> seq 0 k)))
  ∧ ((∀ i, i < max_retries → rate_limited (atproto E (ticks w + i) req)) →
     run.1 = Val None
     ∧ calls run.2 = calls w ++ replicate max_retries req
     ∧ slept run.2 = slept w ++ (backoff initial_delay <$> seq 0 max_retries))
  ∧ (∀ (A : Type) (api_call_fn : M A) (n : nat) (d : Z) (w0 : world),
       ∃ r, (safe_request api_call_fn n d w0).1 = Val r).
Proof.
  intros run. split; [|split].
  - intros k Hk Hlim.
    assert (Hrun : run = safe_request_loop (api E req) (max_retries - k) (0 + k)
                           (Nat.iter k next_delay initial_delay)
                           (after_rate_limits req 0 initial_delay k w)).
    { subst run. unfold safe_request.
      replace max_retries with (k + (max_retries - k)) at 1 by lia.
      by apply loop_rate_limited. }
    destruct (max_retries - k) as [|remaining] eqn:Hrem; [lia|].
    rewrite loop_unfold in Hrun.
    pose proof (after_rate_limits_ticks req k 0 initial_delay w) as Ht.
    split.
    + intros v Hv. rewrite <- Ht in Hv.
      rewrite (attempt_once_val E req _ _ _ v Hv) in Hrun. rewrite Hrun. simpl.
      split; [done|]. rewrite calls_push, slept_push.
      rewrite after_rate_limits_calls, after_rate_limits_slept, backoff_waits.
      rewrite <- !app_assoc. split; [|done].
      f_equal. symmetry. apply replicate_cons_app.
    + intros e He Hr. rewrite <- Ht in He.
      rewrite (attempt_once_error E req _ _ _ e He Hr) in Hrun. rewrite Hrun. simpl.
      split; [done|]. rewrite calls_push, slept_push.
      rewrite after_rate_limits_calls, after_rate_limits_slept, backoff_waits.
      rewrite <- !app_assoc, app_nil_r. split; [|done].
      f_equal. symmetry. apply replicate_cons_app.
  - intros Hlim.
    assert (Hrun : run = (Val None, after_rate_limits req 0 initial_delay max_retries w)).
    { subst run. unfold safe_request.
      rewrite <- (Nat.add_0_r max_retries) at 1.
      by rewrite loop_rate_limited. }
    rewrite Hrun. cbn [fst snd].
    by rewrite after_rate_limits_calls, after_rate_limits_slept, backoff_waits.
  - intros A f n d w0. apply safe_request_loop_returns.
Qed.

(** The contract where the first two calls hit the rate limit and the
    third is answered: the waits are 5 and 10 seconds, then the pacing
    delay of 3. *)
Lemma safe_request_contract_witness :
  let run := safe_request (api Scenario.env_rate_limited (ResolveHandle (lit "alice.test")))
               default_max_retries default_initial_delay (Scenario.start Missing) in
  run.1 = Val (Some Scenario.profile)
  ∧ calls run.2 = replicate 3 (ResolveHandle (lit "alice.test"))
  ∧ slept run.2 = [5; 10; 3]%Z.
Proof.
  refine (proj1 (proj1 (safe_request_contract Scenario.env_rate_limited
                          (ResolveHandle (lit "alice.test")) 5 5 (Scenario.start Missing))
                   2 _ _) Scenario.profile _).
  - unfold default_max_retries. lia.
  - intros i Hi. exists Scenario.too_many_requests.
    destruct i as [|[|i]]; [by vm_compute | by vm_compute | lia].
  - reflexivity.
Defined.

End SafeRequest.

(** ** The post filters *)

Section PostFilters.
Import Pull.

Lemma lstrip_blank (s : str) : blank s → lstrip s = [].
Proof. induction 1 as [|c s Hc _ IH]; simpl; [done|]. by rewrite Hc. Qed.

Lemma lstrip_nil_blank (s : str) : lstrip s = [] → blank s.
Proof.
  induction s as [|c s IH]; simpl; [constructor|].
  destruct (isspace c) eqn:Hc; [|done]. intros H. constructor; [exact Hc | by apply IH].
Qed.

(** [strip] leaves nothing exactly of the blank strings. *)
Lemma strip_nil_iff (s : str) : strip s = [] ↔ blank s.
Proof.
  split.
  - unfold strip. intros H. apply lstrip_nil_blank.
    destruct (lstrip s) as [|c t] eqn:Hs; [done|]. exfalso.
    assert (Hc : isspace c = false) by (apply (lstrip_head s); by rewrite Hs).
    by rewrite rstrip_cons in H.
  - intros H. unfold strip. by rewrite lstrip_blank.
Qed.

Lemma truthy_strip (s : str) : truthy (strip s) = negb (bool_decide (blank s)).
Proof.
  case_bool_decide as H.
  - apply strip_nil_iff in H. by rewrite H.
  - destruct (strip s) eqn:Hs; [|done]. exfalso. by apply H, strip_nil_iff.
Qed.

Context (E : env).

Lemma process_post_repost (handle : str) (p : feed_view_post) (rows : list row) (w : world) :
  is_repost p → process_post E handle p rows w = (Val rows, w).
Proof. intros H. unfold process_post. by rewrite bool_decide_true. Qed.

Lemma process_post_reply (handle : str) (p : feed_view_post) (rows : list row) (w : world) :
  is_reply p → process_post E handle p rows w = (Val rows, w).
Proof.
  intros [parent H]. unfold process_post. case_bool_decide; [done|].
  rewrite bool_decide_true; [done|]. by rewrite H.
Qed.

Lemma process_post_blank (handle : str) (p : feed_view_post) (raw : str)
    (rows : list row) (w : world) :
  has_text p raw → blank raw → process_post E handle p rows w = (Val rows, w).
Proof.
  intros Ht Hb. unfold process_post. do 2 (case_bool_decide; [done|]).
  rewrite Ht. apply strip_nil_iff in Hb. by rewrite Hb.
Qed.

(** An original post with some text becomes a row; the text sent to the
    classifier is the cleaned one. *)
Lemma process_post_plain (handle : str) (p : feed_view_post) (raw : str)
    (rows : list row) (w : world) :
  ¬ is_repost p → ¬ is_reply p → has_text p raw → ¬ blank raw →
  ∃ category controversy es,
    process_post E handle p rows w
    = (Val (rows ++ [ {| row_timestamp := wall_clock E (ticks w);
                         row_text := clean_text raw;
                         row_uri := uri (post p);
                         row_handle := handle;
                         row_category := category;
                         row_controversy := controversy |} ]),
       push (es ++ [Chat (Categorize.prompt (clean_text raw))]) 2 w)
    ∧ ∀ e, e ∈ es → ∃ x, e = Log (PrintCategorizationFailed x).
Proof.
  intros Hre Hrp Ht Hb. unfold process_post.
  rewrite bool_decide_false by (intros ?; by apply Hre).
  rewrite bool_decide_false.
  2:{ intros [[x Hx] Hne]. apply Hrp. destruct x as [parent|]; [by exists parent|done]. }
  rewrite Ht. rewrite truthy_strip, bool_decide_false by done.
  rewrite andb_false_r. cbn [negb].
  unfold mbind at 1, M_bind at 1, tick at 1. cbv beta iota.
  set (w1 := {| ticks := S (ticks w); trace := trace w; scraped_posts := scraped_posts w |}).
  destruct (categorize_text_total E (Categorize.OpenAI (OPENAI_API_KEY E))
              (clean_text raw) w1) as (category & controversy & Hc).
  unfold client, Categorize.set_openai_api_key. unfold mbind, M_bind. rewrite Hc.
  exists category, controversy.
  assert (Hpush : ∀ es, push (es ++ [Chat (Categorize.prompt (clean_text raw))]) 1 w1
                        = push (es ++ [Chat (Categorize.prompt (clean_text raw))]) 2 w) by done.
  destruct (chat_completions E (ticks w1) _) as [x| |[]].
  all: try (eexists [Log (PrintCategorizationFailed _)]; split;
            [rewrite <- Hpush; reflexivity
            | intros e He; apply list_elem_of_singleton in He; eauto]).
  destruct (int _) as [[]|z].
  all: try (eexists [Log (PrintCategorizationFailed _)]; split;
            [rewrite <- Hpush; reflexivity
            | intros e He; apply list_elem_of_singleton in He; eauto]).
  exists []. split; [rewrite <- Hpush; reflexivity | intros e He; by apply elem_of_nil in He].
Qed.

End PostFilters.

(** ** What leaves the sink and the state file alone *)

Section Preserves.
Import Pull.

Context {B : Type} (obs : world → B).

Lemma preserves_ret {A} (a : A) : preserves obs (mret a).
Proof. by intros w. Qed.

Lemma preserves_raise {A} (e : exn) : preserves obs (raise e : M A).
Proof. by intros w. Qed.

Lemma preserves_lift {A} (o : outcome A) : preserves obs (lift o).
Proof. by intros w. Qed.

Lemma preserves_bind {A C} (m : M A) (f : A → M C) :
  preserves obs m → (∀ a, preserves obs (f a)) → preserves obs (m ≫= f).
Proof.
  intros Hm Hf w. unfold mbind, M_bind. specialize (Hm w).
  destruct (m w) as [[a|e] w']; simpl in *; [|done]. by rewrite Hf.
Qed.

Lemma preserves_try_except {A} (body : M A) (handler : exn → M A) :
  preserves obs body → (∀ e, preserves obs (handler e)) →
  preserves obs (try_except body handler).
Proof.
  intros Hm Hf w. unfold try_except. specialize (Hm w).
  destruct (body w) as [[a|e] w']; simpl in *; [done|]. by rewrite Hf.
Qed.

End Preserves.

Create HintDb preserves.
#[local] Hint Resolve preserves_ret preserves_raise preserves_lift : preserves.
#[local] Hint Extern 2 (preserves _ (mbind _ _)) =>
  apply preserves_bind; [|intros ?] : preserves.
#[local] Hint Extern 2 (preserves _ (try_except _ _)) =>
  apply preserves_try_except; [|intros ?] : preserves.

Section Durable.
Import Pull.

Lemma durable_push (es : list event) (n : nat) (w : world) :
  omap outward es = [] → durable (push es n w) = durable w.
Proof.
  intros H. unfold durable. rewrite project_push, H. by rewrite app_nil_r.
Qed.

Lemma durable_tick : preserves durable tick.
Proof. by intros w. Qed.

Lemma durable_emit (e : event) : outward e = None → preserves durable (emit e).
Proof.
  intros H w. unfold durable, project, emit. simpl. by rewrite H.
Qed.

Lemma durable_sleep (secs : Z) : preserves durable (sleep secs).
Proof. by apply durable_emit. Qed.

Lemma durable_log (m : log_msg) :
  match m with LogSending _ _ | LogNoNewPosts _ => False | _ => True end →
  preserves durable (log m).
Proof. intros H. apply durable_emit. by destruct m. Qed.

#[local] Hint Resolve durable_tick durable_sleep : preserves.
#[local] Hint Extern 1 (preserves durable (log _)) => by apply durable_log : preserves.
#[local] Hint Extern 1 (preserves durable (emit _)) => by apply durable_emit : preserves.

Context (E : env).

Lemma durable_api (req : request) : preserves durable (api E req).
Proof. unfold api. auto with preserves. Qed.

Lemma durable_attempt_once {A} (f : M A) (attempt : nat) (delay : Z) :
  preserves durable f → preserves durable (attempt_once f attempt delay).
Proof.
  intros Hf. unfold attempt_once.
  apply preserves_try_except; [auto with preserves|].
  intros e. destruct (is_rate_limit e); auto with preserves.
Qed.

Lemma durable_safe_request {A} (f : M A) (max_retries : nat) (initial_delay : Z) :
  preserves durable f → preserves durable (safe_request f max_retries initial_delay).
Proof.
  intros Hf. unfold safe_request. generalize 0 as attempt. revert initial_delay.
  induction max_retries as [|n IH]; intros delay attempt; simpl.
  - auto with preserves.
  - apply preserves_bind; [by apply durable_attempt_once|].
    intros [r|d|]; auto with preserves.
Qed.

Lemma durable_categorize_text (client : option Categorize.openai_client) (text : str) :
  preserves durable (Categorize.categorize_text E client text).
Proof.
  unfold Categorize.categorize_text. destruct client; [|auto with preserves].
  apply preserves_try_except; [|auto with preserves].
  repeat (apply preserves_bind; [|intros ?]); auto with preserves.
  - destruct (chat_completions _ _ _); auto with preserves.
  - unfold get. destruct a1; auto with preserves.
  - unfold get. destruct a1; auto with preserves.
  - unfold int_. destruct (int a3) as [[]|]; auto with preserves.
Qed.

Lemma durable_process_post (handle : str) (p : feed_view_post) (rows : list row) :
  preserves durable (process_post E handle p rows).
Proof.
  unfold process_post.
  do 2 (case_bool_decide; [auto with preserves|]).
  destruct (text _) as [[raw|]|]; [|auto with preserves..].
  destruct (truthy _); cbn [negb]; [|auto with preserves].
  rewrite andb_false_r.
  apply preserves_bind; [auto with preserves|]. intros n.
  apply preserves_bind; [apply durable_categorize_text|]. intros [c z].
  auto with preserves.
Qed.

Lemma durable_process_item (handle : str) (idx : nat) (p : feed_view_post)
    (rows : list row) :
  preserves durable (process_item E handle idx p rows).
Proof.
  unfold process_item. apply preserves_try_except; [apply durable_process_post|].
  auto with preserves.
Qed.

Lemma durable_process_feed (handle : str) (items : list feed_view_post) :
  ∀ idx rows, preserves durable (process_feed E handle idx items rows).
Proof.
  induction items as [|p items IH]; intros idx rows; simpl; [auto with preserves|].
  apply preserves_bind; [apply durable_process_item | intros rows'; apply IH].
Qed.

Lemma durable_get_posts_for_user (handle : str) :
  preserves durable (get_posts_for_user E handle).
Proof.
  unfold get_posts_for_user.
  apply preserves_bind; [apply durable_safe_request, durable_api|]. intros profile.
  destruct (profile ≫= did) as [d|]; [|auto with preserves].
  apply preserves_bind; [auto with preserves|]. intros _.
  apply preserves_bind; [apply durable_safe_request, durable_api|]. intros f.
  destruct (f ≫= feed) as [items|]; [apply durable_process_feed | auto with preserves].
Qed.

Lemma durable_get_user_list : preserves durable (get_user_list E).
Proof. unfold get_user_list. auto with preserves. Qed.

End Durable.

(** ** One feed item, and the whole feed *)

Section Feed.
Import Pull.
Context (E : env).

Lemma process_item_val (handle : str) (idx : nat) (p : feed_view_post)
    (rows rows' : list row) (w w' : world) :
  process_post E handle p rows w = (Val rows', w') →
  process_item E handle idx p rows w = (Val rows', w').
Proof. intros H. unfold process_item, try_except. by rewrite H. Qed.

Lemma kept_true (p : feed_view_post) :
  kept p = true ↔
  ¬ is_repost p ∧ ¬ is_reply p ∧ ∃ raw, has_text p raw ∧ ¬ blank raw.
Proof.
  unfold kept, is_repost, is_reply, has_text.
  rewrite !andb_true_iff, bool_decide_eq_true, negb_true_iff, bool_decide_eq_false.
  split.
  - intros [[Hr Hp] Ht]. split; [by intros ?|]. split.
    + intros [parent Hparent]. apply Hp. by rewrite Hparent.
    + destruct (text _) as [[raw|]|]; try done. exists raw. split; [done|].
      rewrite truthy_strip in Ht. apply negb_true_iff in Ht.
      by apply bool_decide_eq_false in Ht.
  - intros (Hr & Hp & raw & Ht & Hb). split; [split|].
    + destruct (reason p); [by destruct Hr | done].
    + intros [[x Hx] Hne]. apply Hp. destruct x as [parent|]; [by exists parent | done].
    + rewrite Ht, truthy_strip. apply negb_true_iff. by apply bool_decide_eq_false.
Qed.

(** A kept item adds one row, with the item's URI; any other item adds
    none. Nothing is raised either way. *)
Lemma process_item_cases (handle : str) (idx : nat) (p : feed_view_post)
    (rows : list row) (w : world) :
  (kept p = true ∧ ∃ r w',
      process_item E handle idx p rows w = (Val (rows ++ [r]), w')
      ∧ row_uri r = uri (post p))
  ∨ (kept p = false ∧ ∃ w', process_item E handle idx p rows w = (Val rows, w')).
Proof.
  destruct (kept p) eqn:Hk.
  - left. split; [done|]. apply kept_true in Hk as (Hr & Hp & raw & Ht & Hb).
    destruct (process_post_plain E handle p raw rows w Hr Hp Ht Hb)
      as (category & controversy & es & Hrun & _).
    eexists _, _. split; [by apply process_item_val|]. done.
  - right. split; [done|].
    destruct (decide (is_repost p)) as [Hr|Hr].
    { exists w. by apply process_item_val, process_post_repost. }
    destruct (decide (is_Some (reply (record (post p))) ∧ reply (record (post p)) ≠ Some None))
      as [Hp|Hp].
    { exists w. apply process_item_val, process_post_reply.
      destruct Hp as [[[parent|] Hx] Hne]; [by exists parent | done]. }
    unfold process_item, process_post, try_except.
    rewrite (bool_decide_false _ Hr), (bool_decide_false _ Hp).
    destruct (text (record (post p))) as [[raw|]|] eqn:Ht.
    + destruct (decide (blank raw)) as [Hb|Hb].
      * apply strip_nil_iff in Hb. rewrite Hb. by eauto.
      * exfalso. apply not_true_iff_false in Hk. apply Hk, kept_true.
        split; [done|]. split; [|by exists raw].
        intros [parent Hparent]. apply Hp. by rewrite Hparent.
    + unfold_eff. by eauto.
    + by eauto.
Qed.

(** The rows of a feed carry the URIs of its kept items, in order. *)
Lemma process_feed_uris (handle : str) (items : list feed_view_post) :
  ∀ idx rows w, ∃ rows' w',
    process_feed E handle idx items rows w = (Val rows', w')
    ∧ row_uri <$> rows' = (row_uri <$> rows) ++ ((uri ∘ post) <$> List.filter kept items).
Proof.
  induction items as [|p items IH]; intros idx rows w.
  - exists rows, w. by rewrite app_nil_r.
  - simpl process_feed. unfold mbind, M_bind.
    destruct (process_item_cases handle idx p rows w)
      as [(Hk & r & w1 & Hrun & Hr)|(Hk & w1 & Hrun)]; rewrite Hrun; simpl; rewrite Hk.
    + destruct (IH (S idx) (rows ++ [r]) w1) as (rows' & w' & Hfeed & Huris).
      exists rows', w'. split; [done|].
      rewrite Huris, fmap_app, <- app_assoc. simpl. by rewrite Hr.
    + apply IH.
Qed.

End Feed.

Section PostFilterTheorems.
Import Pull.

(** C8. For every feed item, at any place in any feed: a repost adds no
    row, a reply adds no row, an item whose text is empty or made of
    white space only adds no row (the row list and the world are left as
    they were), and an original post that is no reply and whose text is
    not blank (the claim's non-empty text, read against its own third
    clause) adds exactly one row, with the post's URI, its cleaned text
    and the user's handle. Hence the rows of a feed are those of its kept
    items, in feed order. *)
Theorem post_filters (E : env) (handle : str) (idx : nat) (p : feed_view_post)
    (rows : list row) (w : world) :
  (is_repost p → process_item E handle idx p rows w = (Val rows, w))
  ∧ (is_reply p → process_item E handle idx p rows w = (Val rows, w))
  ∧ (∀ raw, has_text p raw → blank raw →
       process_item E handle idx p rows w = (Val rows, w))
  ∧ (∀ raw, ¬ is_repost p → ¬ is_reply p → has_text p raw → ¬ blank raw →
       ∃ r w', process_item E handle idx p rows w = (Val (rows ++ [r]), w')
               ∧ row_uri r = uri (post p)
               ∧ row_text r = clean_text raw
               ∧ row_handle r = handle)
  ∧ (∀ items, ∃ rows' w',
       process_feed E handle idx items [] w = (Val rows', w')
       ∧ row_uri <$> rows' = (uri ∘ post) <$> List.filter kept items)
  ∧ (∀ q, kept q = true ↔
            ¬ is_repost q ∧ ¬ is_reply q ∧ ∃ raw, has_text q raw ∧ ¬ blank raw).
Proof.
  split; [|split; [|split; [|split; [|split]]]].
  - intros H. by apply process_item_val, process_post_repost.
  - intros H. by apply process_item_val, process_post_reply.
  - intros raw Ht Hb. by eapply process_item_val, process_post_blank.
  - intros raw Hr Hp Ht Hb.
    destruct (process_post_plain E handle p raw rows w Hr Hp Ht Hb)
      as (category & controversy & es & Hrun & _).
    eexists _, _. split; [by apply process_item_val|]. done.
  - intros items. apply (process_feed_uris E handle items idx [] w).
  - apply kept_true.
Qed.

(** The original post of the end-to-end scenario becomes a row. *)
Lemma post_filters_witness :
  ∃ r w', process_item Scenario.env_ok (lit "alice.test") 3
            (Scenario.a_post None (Some None) (lit "Hello world") "at://alice/3")
            [] (Scenario.start Missing) = (Val ([] ++ [r]), w')
          ∧ row_uri r = lit "at://alice/3"
          ∧ row_text r = clean_text (lit "Hello world")
          ∧ row_handle r = lit "alice.test".
Proof.
  refine (proj1 (proj2 (proj2 (proj2 (post_filters Scenario.env_ok (lit "alice.test") 3
            (Scenario.a_post None (Some None) (lit "Hello world") "at://alice/3")
            [] (Scenario.start Missing))))) (lit "Hello world") _ _ _ _).
  - intros H. by apply H.
  - intros [parent [=]].
  - reflexivity.
  - intros H. by inversion H.
Defined.

Lemma clean_text_non_ascii (raw : str) :
  Forall (fun c => (127 < c)%N) raw → clean_text raw = [].
Proof.
  intros H. unfold clean_text.
  assert (Hnil : re_sub_class non_ascii (re_sub_class astral raw) = []); [|by rewrite Hnil].
  unfold re_sub_class. induction H as [|c raw Hc _ IH]; [done|].
  simpl. destruct (astral c); simpl; [exact IH|].
  unfold non_ascii at 1. rewrite (proj2 (N.leb_gt c 127) Hc). simpl. exact IH.
Qed.

Lemma chats_push (es : list event) (n : nat) (w : world) :
  chats (push es n w)
  = chats w ++ reverse (omap (fun e => match e with Chat p => Some p | _ => None end) es).
Proof. apply project_push. Qed.

(** C10 (amended). A post that is neither a repost nor a reply and whose
    text holds only non-ASCII characters, one of them at least not a
    white-space character (an emoji, say), passes the text filter, which
    looks at the raw text; its row has the empty string as cleaned text,
    and the prompt sent to the classifier is the one around the empty
    string. *)
Theorem non_ascii_post_row (E : env) (handle : str) (idx : nat) (p : feed_view_post)
    (raw : str) (rows : list row) (w : world) :
  ¬ is_repost p → ¬ is_reply p → has_text p raw →
  Forall (fun c => (127 < c)%N) raw →
  (∃ c, c ∈ raw ∧ isspace c = false) →
  ∃ r w', process_item E handle idx p rows w = (Val (rows ++ [r]), w')
          ∧ row_text r = []
          ∧ row_uri r = uri (post p)
          ∧ chats w' = chats w ++ [Categorize.prompt []].
Proof.
  intros Hr Hp Ht Hna (c & Hin & Hc).
  assert (Hb : ¬ blank raw).
  { intros Hb. unfold blank in Hb. rewrite Forall_forall in Hb.
    specialize (Hb c Hin). congruence. }
  destruct (process_post_plain E handle p raw rows w Hr Hp Ht Hb)
    as (category & controversy & es & Hrun & Hes).
  rewrite (clean_text_non_ascii raw Hna) in Hrun.
  eexists _, _. split; [by apply process_item_val|].
  split; [done|]. split; [done|].
  rewrite chats_push, omap_app. simpl.
  assert (Hnil : omap (fun e => match e with Chat p => Some p | _ => None end) es = []);
    [|by rewrite Hnil].
  clear Hrun. induction es as [|e es IH]; [done|].
  destruct (Hes e) as [x ->]; [left|]. simpl. apply IH.
  intros e' He'. apply Hes. by right.
Qed.

(** The theorem at a post whose text is one emoji. *)
Lemma non_ascii_post_row_witness :
  ∃ r w', process_item Scenario.env_ok (lit "alice.test") 1 Scenario.emoji_post []
            (Scenario.start Missing) = (Val ([] ++ [r]), w')
          ∧ row_text r = []
          ∧ row_uri r = uri (post Scenario.emoji_post)
          ∧ chats w' = chats (Scenario.start Missing) ++ [Categorize.prompt []].
Proof.
  apply (non_ascii_post_row Scenario.env_ok (lit "alice.test") 1 Scenario.emoji_post
           [128512%N] [] (Scenario.start Missing)).
  - intros H. by apply H.
  - intros [parent [=]].
  - reflexivity.
  - repeat constructor.
  - exists 128512%N. split; [left | reflexivity].
Defined.

(** C10, as the claim has it, fails: the text of [nbsp_post] is not empty
    and holds one non-ASCII character, a no-break space; [strip] removes
    it, so the filter skips the post and no row is made. *)
Lemma nbsp_only_post_dropped :
  has_text Scenario.nbsp_post [160%N]
  ∧ Forall (fun c => (127 < c)%N) [160%N]
  ∧ process_item Scenario.env_ok (lit "alice.test") 1 Scenario.nbsp_post []
      (Scenario.start Missing) = (Val [], Scenario.start Missing).
Proof. split; [reflexivity|]. split; [by repeat constructor | reflexivity]. Qed.

End PostFilterTheorems.

(** ** The deduplication filter *)

Section FilterNew.
Import Pull.

Lemma filter_new_acc (rows : list row) : ∀ acc S,
  filter_new rows acc S = (acc ++ (filter_new rows [] S).1, (filter_new rows [] S).2).
Proof.
  induction rows as [|r rows IH]; intros acc S; simpl.
  - by rewrite app_nil_r.
  - case_bool_decide.
    + rewrite (IH (acc ++ [r])), (IH [r]). simpl. by rewrite <- app_assoc.
    + apply IH.
Qed.

Lemma filter_new_cons (r : row) (rows : list row) (S : gset str) :
  filter_new (r :: rows) [] S =
  if bool_decide (row_uri r ∉ S)
  then (r :: (filter_new rows [] ({[row_uri r]} ∪ S)).1,
        (filter_new rows [] ({[row_uri r]} ∪ S)).2)
  else filter_new rows [] S.
Proof. simpl. case_bool_decide; [|done]. by rewrite filter_new_acc. Qed.

Lemma filter_new_updated (rows : list row) : ∀ S,
  (filter_new rows [] S).2 = S ∪ list_to_set (row_uri <$> rows).
Proof.
  induction rows as [|r rows IH]; intros S.
  - simpl. set_solver.
  - rewrite filter_new_cons. case_bool_decide as Hr; simpl; rewrite IH; set_solver.
Qed.

Lemma filter_new_sublist (rows : list row) : ∀ S,
  (filter_new rows [] S).1 `sublist_of` rows.
Proof.
  induction rows as [|r rows IH]; intros S; [done|].
  rewrite filter_new_cons. case_bool_decide; simpl.
  - by apply sublist_skip.
  - by apply sublist_cons.
Qed.

Lemma filter_new_fresh (rows : list row) : ∀ S r,
  r ∈ (filter_new rows [] S).1 → row_uri r ∉ S.
Proof.
  induction rows as [|x rows IH]; intros S r; [by intros ?%elem_of_nil|].
  rewrite filter_new_cons. case_bool_decide as Hx; simpl.
  - intros [->|Hr]%elem_of_cons; [done|]. apply IH in Hr. set_solver.
  - apply IH.
Qed.

Lemma filter_new_NoDup (rows : list row) : ∀ S,
  NoDup (row_uri <$> (filter_new rows [] S).1).
Proof.
  induction rows as [|x rows IH]; intros S; [constructor|].
  rewrite filter_new_cons. case_bool_decide as Hx; simpl; [|apply IH].
  constructor; [|apply IH].
  intros (r & Hu & Hr)%list_elem_of_fmap. apply filter_new_fresh in Hr. set_solver.
Qed.

Lemma filter_new_first (rows : list row) : ∀ S i r,
  rows !! i = Some r → row_uri r ∉ S → row_uri r ∉ row_uri <$> take i rows →
  r ∈ (filter_new rows [] S).1.
Proof.
  induction rows as [|x rows IH]; intros S i r Hi HS Hfirst; [done|].
  rewrite filter_new_cons. destruct i as [|i]; simpl in Hi.
  - injection Hi as ->. rewrite bool_decide_true by done. left.
  - simpl in Hfirst. apply not_elem_of_cons in Hfirst as [Hne Hfirst].
    case_bool_decide; simpl.
    + right. apply (IH _ i); [done | set_solver | done].
    + by apply (IH _ i).
Qed.

Lemma filter_new_distinct (rows : list row) : ∀ S,
  NoDup (row_uri <$> rows) →
  (filter_new rows [] S).1 = List.filter (fun r => bool_decide (row_uri r ∉ S)) rows.
Proof.
  induction rows as [|x rows IH]; intros S Hnd; [done|].
  rewrite filter_new_cons. simpl in Hnd. apply NoDup_cons in Hnd as [Hx Hnd].
  simpl. case_bool_decide as HxS; simpl; [|by apply IH].
  f_equal. rewrite IH by done. apply List.filter_ext_in. intros r Hr.
  apply bool_decide_ext. apply list_elem_of_In in Hr.
  assert (row_uri r ≠ row_uri x).
  { intros Heq. apply Hx. rewrite <- Heq. by apply list_elem_of_fmap_2. }
  set_solver.
Qed.

(** No new row means every fetched URI is already in the set. *)
Lemma filter_new_nil (rows : list row) (S : gset str) :
  (filter_new rows [] S).1 = [] ↔ list_to_set (row_uri <$> rows) ⊆ S.
Proof.
  revert S. induction rows as [|x rows IH]; intros S.
  - simpl. set_solver.
  - rewrite filter_new_cons. case_bool_decide as Hx; simpl.
    + split; [done|]. set_solver.
    + rewrite IH. set_solver.
Qed.




End FilterNew.

(** ** The deduplication store *)

Section Store.
Import Pull.

Lemma load_missing (w : world) :
  scraped_posts w = Missing → load_existing_post_uris w = (Val ∅, w).
Proof. intros H. unfold load_existing_post_uris. unfold_eff. by rewrite H. Qed.

Lemma load_garbage (w : world) :
  scraped_posts w = Garbage → load_existing_post_uris w = (Val ∅, w).
Proof. intros H. unfold load_existing_post_uris. unfold_eff. by rewrite H. Qed.

Lemma load_unreadable (w : world) (e : exn) :
  scraped_posts w = Unreadable e → load_existing_post_uris w = (Exc e, w).
Proof. intros H. unfold load_existing_post_uris. unfold_eff. by rewrite H. Qed.

Lemma strings_of_JStr (l : list str) : strings_of (JStr <$> l) = l.
Proof. unfold strings_of. induction l as [|x l IH]; [done|]. cbn. by f_equal. Qed.

Lemma hashable_JStr (l : list str) : forallb hashable (JStr <$> l) = true.
Proof. by induction l. Qed.

(** A well-formed state file gives back the URIs it lists. *)
Lemma load_well_formed (w : world) (items : list (str * json)) (l : list str) :
  scraped_posts w = Document (JObj items) →
  dict_get items (lit "uris") (JArr []) = JArr (JStr <$> l) →
  load_existing_post_uris w = (Val (list_to_set l), w).
Proof.
  intros H Hu. unfold load_existing_post_uris, except_JSONDecodeError, json_load, set_.
  unfold_eff. rewrite H. cbv beta iota. rewrite Hu. cbv beta iota.
  by rewrite hashable_JStr, strings_of_JStr.
Qed.

(** What [save_post_uris] wrote is what [load_existing_post_uris] reads. *)
Lemma load_dump (w : world) (S : gset str) :
  scraped_posts w = dump S → load_existing_post_uris w = (Val S, w).
Proof.
  intros H. rewrite (load_well_formed w _ (elements S) H); [|done].
  by rewrite list_to_set_elements_L.
Qed.

(** Loading changes nothing. *)
Lemma load_pure (w w' : world) (o : outcome (gset str)) :
  load_existing_post_uris w = (o, w') → w' = w.
Proof.
  unfold load_existing_post_uris, except_JSONDecodeError, json_load, set_. unfold_eff.
  destruct (scraped_posts w) as [|e| |data]; try by intros [= _ <-].
  destruct data as [| | | | | | | |items]; try by intros [= _ <-].
  cbv beta iota.
  destruct (dict_get items _ _) as [| | | | | | |xs|]; try by intros [= _ <-].
  cbv beta iota. destruct (forallb hashable xs); by intros [= _ <-].
Qed.

(** The result of loading depends on the state file only. *)
Lemma load_file_only (w w' : world) :
  scraped_posts w = scraped_posts w' →
  (load_existing_post_uris w).1 = (load_existing_post_uris w').1.
Proof.
  intros H. unfold load_existing_post_uris, except_JSONDecodeError, json_load, set_.
  unfold_eff. rewrite H.
  destruct (scraped_posts w') as [|e| |data]; try done.
  destruct data as [| | | | | | | |items]; try done.
  cbv beta iota.
  destruct (dict_get items _ _) as [| | | | | | |xs|]; try done.
  cbv beta iota. by destruct (forallb hashable xs).
Qed.

(** C6, where the code departs from the claim. A state file that holds
    the JSON document [[]] (well-formed JSON, but no object) makes
    [load_existing_post_uris] raise [AttributeError], which [except
    json.JSONDecodeError] lets through, and [main] ends with that
    exception; a file that cannot be opened raises as well. The claim is
    kept by a missing file, by text that is no JSON and by a well-formed
    file. *)
Theorem load_raises_on_corrupt_state :
  load_existing_post_uris (Scenario.start (Document (JArr [])))
  = (Exc (Exception AttributeError (lit "object has no attribute 'get'")),
     Scenario.start (Document (JArr [])))
  ∧ (main Scenario.env_ok (Scenario.start (Document (JArr [])))).1
    = Exc (Exception AttributeError (lit "object has no attribute 'get'"))
  ∧ load_existing_post_uris
      (Scenario.start (Unreadable (Exception OSError (lit "Permission denied"))))
    = (Exc (Exception OSError (lit "Permission denied")),
       Scenario.start (Unreadable (Exception OSError (lit "Permission denied"))))
  ∧ load_existing_post_uris (Scenario.start Missing) = (Val ∅, Scenario.start Missing)
  ∧ load_existing_post_uris (Scenario.start Garbage) = (Val ∅, Scenario.start Garbage)
  ∧ load_existing_post_uris (Scenario.start (dump {[lit "at://alice/3"]}))
    = (Val {[lit "at://alice/3"]}, Scenario.start (dump {[lit "at://alice/3"]})).
Proof.
  split; [reflexivity|]. split; [reflexivity|]. split; [reflexivity|].
  split; [by apply load_missing|]. split; [by apply load_garbage|].
  by apply load_dump.
Qed.

End Store.

(** ** The orchestrator *)

Section Orchestrator.
Import Pull.
Context (E : env).

Lemma get_posts_for_user_returns (handle : str) (w : world) :
  ∃ rows w1, get_posts_for_user E handle w = (Val rows, w1).
Proof.
  unfold get_posts_for_user. unfold mbind at 1, M_bind at 1.
  destruct (safe_request_loop_returns (api E (ResolveHandle handle))
              default_max_retries 0 default_initial_delay w) as [profile Hp].
  unfold safe_request.
  destruct (safe_request_loop _ _ _ _ w) as [o w1]. simpl in Hp. subst o.
  destruct (profile ≫= did) as [d|]; [|unfold_eff; by eauto].
  unfold mbind at 1, M_bind at 1, log at 1, emit at 1. cbv beta iota.
  unfold mbind at 1, M_bind at 1.
  match goal with |- context [safe_request_loop ?f ?n ?a ?dl ?w'] =>
    destruct (safe_request_loop_returns f n a dl w') as [fd Hf];
    destruct (safe_request_loop f n a dl w') as [o w2] end.
  simpl in Hf. subst o.
  destruct (fd ≫= feed) as [items|]; [|unfold_eff; by eauto].
  destruct (process_feed_uris E handle items 1 [] w2) as (rows & w3 & Hrun & _).
  by eauto.
Qed.

Lemma send_to_google_sheets_run (rows : list row) (w : world) :
  send_to_google_sheets E rows w
  = (Val tt,
     push [Log (sheets_log (sheets_append E (ticks w) rows) (length rows)); Append rows] 1 w).
Proof.
  unfold send_to_google_sheets. unfold_eff. simpl.
  by destruct (sheets_append E (ticks w) rows) as [[]|e].
Qed.

(** One user, given the rows fetched for it. *)
Lemma process_user_run (user : str) (seen : gset str) (w w1 : world) (rows : list row) :
  get_posts_for_user E user w = (Val rows, w1) →
  process_user E user seen w
  = (Val (filter_new rows [] seen).2,
     match (filter_new rows [] seen).1 with
     | [] =>
         push [Sleep (DELAY_BETWEEN_USERS E); Log (LogWaiting (DELAY_BETWEEN_USERS E));
               Log (LogNoNewPosts user)] 0 w1
     | new_rows =>
         {| ticks := S (ticks w1);
            trace := [Sleep (DELAY_BETWEEN_USERS E); Log (LogWaiting (DELAY_BETWEEN_USERS E));
                      Save (filter_new rows [] seen).2;
                      Log (sheets_log (sheets_append E (ticks w1) new_rows) (length new_rows));
                      Append new_rows;
                      Log (LogSending (length new_rows) user)] ++ trace w1;
            scraped_posts := dump (filter_new rows [] seen).2 |}
     end).
Proof.
  intros Hrows. unfold process_user. unfold mbind at 1, M_bind at 1. rewrite Hrows.
  destruct (filter_new rows [] seen) as [new_rows updated_uris]. cbn [fst snd].
  destruct new_rows as [|r new_rows].
  - reflexivity.
  - unfold mbind at 1, M_bind at 1. unfold mbind at 1, M_bind at 1.
    unfold log at 1, emit at 1. cbv beta iota.
    unfold mbind at 1, M_bind at 1. rewrite send_to_google_sheets_run.
    reflexivity.
Qed.

(** The login is attempted, and whatever comes of it the run goes on:
    the handler of line 161 is never entered. *)
Lemma main_after_login (w : world) :
  ∃ w1, main E w = after_login E w1 ∧ durable w1 = durable w.
Proof.
  unfold main. unfold mbind at 1, M_bind at 1, try_except at 1.
  unfold mbind at 1, M_bind at 1, log at 1, emit at 1. cbv beta iota.
  unfold mbind at 1, M_bind at 1.
  set (w' := {| ticks := ticks w; trace := Log LogLoggingIn :: trace w;
                scraped_posts := scraped_posts w |}).
  pose proof (durable_safe_request (api E (Login (USERNAME E) (PASSWORD E)))
                default_max_retries default_initial_delay (durable_api E _) w') as Hd.
  destruct (safe_request_loop_returns (api E (Login (USERNAME E) (PASSWORD E)))
              default_max_retries 0 default_initial_delay w') as [r Hr].
  unfold safe_request in *.
  destruct (safe_request_loop _ _ _ _ w') as [o w1]. simpl in Hr, Hd. subst o.
  exists w1. split; [reflexivity|]. rewrite Hd. reflexivity.
Qed.

End Orchestrator.

Section OrchestratorTheorems.
Import Pull.

(** C1, where the code departs from the claim. The login is refused (an
    error that is no rate-limit signal). [safe_request] logs it and
    returns [None], so [main] does not see it: the rest of the run is
    what it is after any login, the user is resolved and fetched, one row
    is sent to the sink and the state file is written. The line "Login
    failed" is never logged. *)
Theorem refused_login_is_not_fatal :
  let run := main Scenario.env_login_refused (Scenario.start Missing) in
  atproto Scenario.env_login_refused 0
    (Login (lit "scraper.test") (lit "app-password")) = Exc Scenario.bad_password
  ∧ run.1 = Val tt
  ∧ calls run.2 = [Login (lit "scraper.test") (lit "app-password");
                   ResolveHandle (lit "alice.test");
                   GetAuthorFeed (lit "did:plc:alice") 10]
  ∧ logs run.2 = [LogLoggingIn; LogApiCallFailed Scenario.bad_password;
                  LogFetching (lit "alice.test") (lit "did:plc:alice");
                  LogSending 1 (lit "alice.test"); LogAppended 1;
                  LogWaiting 2; LogFinished]
  ∧ sink_calls run.2 = [[Scenario.hello_row "2024-01-01 00:00:00"]]
  ∧ scraped_posts run.2 = dump {[lit "at://alice/3"]}.
Proof. vm_compute. repeat split. Qed.




End OrchestratorTheorems.

(** ** Running twice *)

Section Rerun.
Import Pull.

Lemma omap_reverse {A C} (f : A → option C) (l : list A) :
  omap f (reverse l) = reverse (omap f l).
Proof.
  induction l as [|x l IH]; [done|].
  rewrite reverse_cons, omap_app, IH. simpl.
  destruct (f x); simpl; [by rewrite reverse_cons | by rewrite app_nil_r].
Qed.

Lemma omap_outward {C} (g : event → option C) (l : list event) :
  (∀ e, outward e = None → g e = None) →
  omap g (omap outward l) = omap g l.
Proof.
  intros Hg. induction l as [|e l IH]; [done|]. cbn.
  destruct (outward e) as [e'|] eqn:He; cbn.
  - assert (e' = e) as -> by (destruct e as [| | | | |[]]; simpl in He; congruence).
    by rewrite IH.
  - by rewrite (Hg e He).
Qed.

Lemma sink_calls_outward (w : world) :
  sink_calls w
  = omap (fun e => match e with Append rows => Some rows | _ => None end) (project outward w).
Proof.
  unfold sink_calls, project. rewrite omap_reverse, omap_outward; [done|].
  by intros [| | | | |[]].
Qed.

Lemma saves_outward (w : world) :
  saves w
  = omap (fun e => match e with Save uris => Some uris | _ => None end) (project outward w).
Proof.
  unfold saves, project. rewrite omap_reverse, omap_outward; [done|].
  by intros [| | | | |[]].
Qed.

Context (E : env) (net : request → outcome response).
Hypothesis Hstable : stable_feed E net.

Lemma safe_request_settled (req : request) (w : world) :
  match req with Login _ _ => False | _ => True end →
  (safe_request (api E req) default_max_retries default_initial_delay w).1
  = Val (settled (net req)).
Proof.
  intros Hreq.
  assert (Hnet : ∀ n, atproto E n req = net req).
  { intros n. specialize (Hstable n req). by destruct req. }
  unfold safe_request, default_max_retries.
  destruct (net req) as [v|e] eqn:Ho.
  - rewrite loop_unfold, (attempt_once_val E req _ _ _ v (Hnet _)). done.
  - destruct (is_rate_limit e) eqn:Hr.
    + change 5 with (5 + 0). rewrite loop_rate_limited; [done|].
      intros i _. exists e. by rewrite Hnet.
    + rewrite loop_unfold, (attempt_once_error E req _ _ _ e (Hnet _) Hr). done.
Qed.

Lemma get_posts_for_user_stable (handle : str) (w : world) :
  ∃ rows w1,
    get_posts_for_user E handle w = (Val rows, w1)
    ∧ row_uri <$> rows = fetched_uris net (POST_LIMIT E) handle.
Proof.
  unfold get_posts_for_user, fetched_uris. unfold mbind at 1, M_bind at 1.
  pose proof (safe_request_settled (ResolveHandle handle) w I) as Hp.
  destruct (safe_request _ _ _ w) as [o w1]. simpl in Hp. subst o.
  destruct (settled (net (ResolveHandle handle)) ≫= did) as [d|]; [|unfold_eff; by eauto].
  unfold mbind at 1, M_bind at 1, log at 1, emit at 1. cbv beta iota.
  unfold mbind at 1, M_bind at 1.
  match goal with |- context [safe_request ?f ?n ?dl ?w'] =>
    pose proof (safe_request_settled (GetAuthorFeed d (POST_LIMIT E)) w' I) as Hf;
    destruct (safe_request f n dl w') as [o w2] end.
  simpl in Hf. subst o.
  destruct (settled (net (GetAuthorFeed d (POST_LIMIT E))) ≫= feed) as [items|];
    [|unfold_eff; by eauto].
  destruct (process_feed_uris E handle items 1 [] w2) as (rows & w3 & Hrun & Huris).
  by eauto.
Qed.

(** The URIs fetched for a user, as a set. *)
Let U (user : str) : gset str := list_to_set (fetched_uris net (POST_LIMIT E) user).

Lemma process_user_stable (user : str) (seen : gset str) (w : world) :
  ∃ w2,
    process_user E user seen w = (Val (seen ∪ U user), w2)
    ∧ (U user ⊆ seen →
       durable w2 = (scraped_posts w, project outward w ++ [Log (LogNoNewPosts user)]))
    ∧ (¬ U user ⊆ seen → scraped_posts w2 = dump (seen ∪ U user)).
Proof.
  destruct (get_posts_for_user_stable user w) as (rows & w1 & Hrows & Huris).
  pose proof (durable_get_posts_for_user E user w) as Hd. rewrite Hrows in Hd.
  simpl in Hd. injection Hd as Hfile Hout.
  rewrite (process_user_run E user seen w w1 rows Hrows).
  pose proof (filter_new_nil rows seen) as Hnil.
  rewrite filter_new_updated, Huris in *. fold (U user) in *.
  eexists. split; [reflexivity|].
  destruct (filter_new rows [] seen).1 as [|r rs] eqn:Hnew.
  - split; [|intros Hn; exfalso; by apply Hn, Hnil].
    intros _. unfold durable. rewrite project_push. simpl.
    by rewrite Hfile, Hout.
  - split; [|done]. intros Hsub. apply Hnil in Hsub. done.
Qed.

(** Through the loop over the users, the state file holds the set the
    loop carries, and the set holds every URI fetched so far. *)
Lemma for_users_stable (users : list str) : ∀ seen w,
  (load_existing_post_uris w).1 = Val seen →
  ∃ seen' w',
    for_users E users seen w = (Val seen', w')
    ∧ (load_existing_post_uris w').1 = Val seen'
    ∧ seen ⊆ seen'
    ∧ ∀ u, u ∈ users → U u ⊆ seen'.
Proof.
  induction users as [|user users IH]; intros seen w Hload.
  - exists seen, w. split; [done|]. split; [done|]. split; [done|].
    intros u Hu. by apply elem_of_nil in Hu.
  - simpl for_users. unfold mbind, M_bind.
    destruct (process_user_stable user seen w) as (w2 & Hrun & Hold & Hnew).
    rewrite Hrun.
    assert (Hload2 : (load_existing_post_uris w2).1 = Val (seen ∪ U user)).
    { destruct (decide (U user ⊆ seen)) as [Hsub|Hsub].
      - specialize (Hold Hsub). injection Hold as Hfile _.
        rewrite (load_file_only w2 w Hfile), Hload. f_equal. set_solver.
      - by rewrite (load_dump w2 _ (Hnew Hsub)). }
    destruct (IH (seen ∪ U user) w2 Hload2) as (seen' & w' & Hfor & Hload' & Hsub' & Hall).
    exists seen', w'. split; [done|]. split; [done|]. split; [set_solver|].
    intros u [->|Hu]%elem_of_cons; [set_solver | by apply Hall].
Qed.

(** When every URI of every user is in the set already, the loop sends
    and saves nothing. *)
Lemma for_users_seen (users : list str) : ∀ seen w,
  (∀ u, u ∈ users → U u ⊆ seen) →
  ∃ w',
    for_users E users seen w = (Val seen, w')
    ∧ durable w'
      = (scraped_posts w, project outward w ++ ((Log ∘ LogNoNewPosts) <$> users)).
Proof.
  induction users as [|user users IH]; intros seen w Hall.
  - exists w. split; [done|]. unfold durable. by rewrite app_nil_r.
  - simpl for_users. unfold mbind, M_bind.
    destruct (process_user_stable user seen w) as (w2 & Hrun & Hold & _).
    assert (Hsub : U user ⊆ seen) by (apply Hall; left).
    rewrite Hrun. replace (seen ∪ U user) with seen by set_solver.
    specialize (Hold Hsub). injection Hold as Hfile Hout.
    destruct (IH seen w2) as (w' & Hfor & Hd); [intros u Hu; apply Hall; by right|].
    exists w'. split; [done|]. rewrite Hd, Hfile, Hout.
    by rewrite <- app_assoc.
Qed.

Lemma get_user_list_run (w : world) :
  ∃ w', get_user_list E w = (Val (user_list E), w') ∧ durable w' = durable w.
Proof.
  unfold get_user_list, user_list. unfold_eff.
  destruct (user_list_file E) as [lines|e]; by eauto.
Qed.

(** What a finished run leaves: a state file that holds every URI the
    network gives for the users of the list. *)
Lemma first_run (w0 w1 : world) :
  main E w0 = (Val tt, w1) →
  user_list E = [] ∨
  ∃ seen, (load_existing_post_uris w1).1 = Val seen ∧ ∀ u, u ∈ user_list E → U u ⊆ seen.
Proof.
  destruct (main_after_login E w0) as (wl & -> & _).
  unfold after_login. unfold mbind at 1, M_bind at 1.
  destruct (get_user_list_run wl) as (wu & -> & _).
  destruct (user_list E) as [|u us] eqn:Hus; [by left|]. intros Hrun. right.
  unfold mbind at 1, M_bind at 1 in Hrun.
  destruct (load_existing_post_uris wu) as [[seen|e] wu'] eqn:Hload; [|done].
  apply load_pure in Hload as Hwu. subst wu'.
  unfold mbind at 1, M_bind at 1 in Hrun.
  destruct (for_users_stable (u :: us) seen wu) as (seen' & w' & Hfor & Hload' & _ & Hall).
  { by rewrite Hload. }
  rewrite Hfor in Hrun. injection Hrun as <-.
  exists seen'. split; [|exact Hall].
  rewrite <- Hload'. by apply load_file_only.
Qed.

Lemma second_run (w : world) :
  (user_list E = [] ∨
   ∃ seen, (load_existing_post_uris w).1 = Val seen ∧ ∀ u, u ∈ user_list E → U u ⊆ seen) →
  ∃ w2,
    main E w = (Val tt, w2)
    ∧ durable w2
      = (scraped_posts w, project outward w ++ ((Log ∘ LogNoNewPosts) <$> user_list E)).
Proof.
  intros Hseen.
  destruct (main_after_login E w) as (wl & -> & Hdl).
  unfold after_login. unfold mbind at 1, M_bind at 1.
  destruct (get_user_list_run wl) as (wu & -> & Hdu).
  rewrite Hdl in Hdu. pose proof Hdu as Hdu'. injection Hdu' as Hfile Hout.
  destruct (user_list E) as [|u us] eqn:Hus.
  - exists (log LogNoUsers wu).2. split; [reflexivity|].
    rewrite (durable_log LogNoUsers I wu), Hdu. unfold durable. by rewrite app_nil_r.
  - destruct Hseen as [|(seen & Hload & Hall)]; [done|].
    unfold mbind at 1, M_bind at 1.
    rewrite (load_file_only w wu (eq_sym Hfile)) in Hload.
    destruct (load_existing_post_uris wu) as [o wu'] eqn:Hl. simpl in Hload. subst o.
    apply load_pure in Hl as ->.
    destruct (for_users_seen (u :: us) seen wu Hall) as (w' & Hfor & Hd).
    unfold mbind at 1, M_bind at 1. rewrite Hfor.
    exists (log LogFinished w').2. split; [reflexivity|].
    by rewrite (durable_log LogFinished I w'), Hd, Hfile, Hout.
Qed.

End Rerun.

Section RerunTheorem.
Import Pull.

Lemma no_append_in_no_new_posts (users : list str) :
  omap (fun e => match e with Append rows => Some rows | _ => None end)
    ((Log ∘ LogNoNewPosts) <$> users) = [].
Proof. by induction users. Qed.

Lemma no_save_in_no_new_posts (users : list str) :
  omap (fun e => match e with Save uris => Some uris | _ => None end)
    ((Log ∘ LogNoNewPosts) <$> users) = [].
Proof. by induction users. Qed.



End RerunTheorem.

(* ===================================================================== *)
(** * Further properties *)
(* ===================================================================== *)

Import More.


Section StoreRoundTrip.
Import Pull.

(** X1. Saving a set and loading it again gives the set back, whatever
    the state file held before: the file then holds the dump of the set
    and the save is the last one recorded. *)
Theorem save_then_load (uris : gset str) (w : world) :
  (save_post_uris uris ;; load_existing_post_uris) w
  = (Val uris, (save_post_uris uris w).2)
  ∧ scraped_posts (save_post_uris uris w).2 = dump uris
  ∧ saves (save_post_uris uris w).2 = saves w ++ [uris].
Proof.
  split; [|split].
  - unfold mbind, M_bind.
    destruct (save_post_uris uris w) as [[[]|e] w'] eqn:Hs; [|done].
    cbn [snd]. apply load_dump.
    unfold save_post_uris in Hs. unfold_eff. by injection Hs as <-.
  - reflexivity.
  - unfold saves, project. simpl. by rewrite reverse_cons.
Qed.

(** X2. The filter only adds to the seen-set, and filtering the same
    rows again with the updated set keeps no row and leaves the set as it
    is. *)
Theorem filter_new_again (rows : list row) (seen : gset str) :
  let updated_uris := (filter_new rows [] seen).2 in
  seen ⊆ updated_uris
  ∧ filter_new rows [] updated_uris = ([], updated_uris).
Proof.
  intros updated_uris. subst updated_uris. rewrite filter_new_updated.
  split; [set_solver|].
  rewrite (surjective_pairing (filter_new rows [] _)).
  f_equal.
  - apply filter_new_nil. set_solver.
  - rewrite filter_new_updated. set_solver.
Qed.

End StoreRoundTrip.

Section CleanTextKeeps.
Import Pull.

Lemma filter_lstrip (P : N → bool) (s : str) :
  (∀ c, P c = true → isspace c = false) →
  List.filter P (lstrip s) = List.filter P s.
Proof.
  intros HP. induction s as [|c s IH]; [done|]. simpl.
  destruct (isspace c) eqn:Hc; [|done].
  destruct (P c) eqn:Hp; [|exact IH].
  apply HP in Hp. congruence.
Qed.

Lemma filter_reverse (P : N → bool) (s : str) :
  List.filter P (reverse s) = reverse (List.filter P s).
Proof.
  induction s as [|c s IH]; [done|].
  rewrite reverse_cons, List.filter_app, IH. simpl.
  destruct (P c); [by rewrite reverse_cons | by rewrite app_nil_r].
Qed.

Lemma filter_strip (P : N → bool) (s : str) :
  (∀ c, P c = true → isspace c = false) →
  List.filter P (strip s) = List.filter P s.
Proof.
  intros HP. unfold strip, rstrip.
  rewrite filter_reverse, filter_lstrip, filter_reverse, reverse_involutive by done.
  by apply filter_lstrip.
Qed.

Lemma filter_re_sub_class (P cls : N → bool) (s : str) :
  (∀ c, P c = true → cls c = false) →
  List.filter P (re_sub_class cls s) = List.filter P s.
Proof.
  intros HP. unfold re_sub_class. induction s as [|c s IH]; [done|]. simpl.
  destruct (cls c) eqn:Hc; simpl.
  - destruct (P c) eqn:Hp; [|exact IH]. apply HP in Hp. congruence.
  - by rewrite IH.
Qed.

Lemma re_sub_class_sublist (cls : N → bool) (s : str) :
  re_sub_class cls s `sublist_of` s.
Proof.
  unfold re_sub_class. induction s as [|c s IH]; [done|]. simpl.
  destruct (cls c); simpl; [by apply sublist_cons | by apply sublist_skip].
Qed.

(** X3. [clean_text] only removes characters: its result is a sublist of
    the text, and every ASCII character that is no white space is kept,
    in order. Its first substitution changes nothing that the second
    would not: the result is the text without its non-ASCII characters,
    stripped. *)
Theorem clean_text_keeps_solid (s : str) :
  clean_text s `sublist_of` s
  ∧ List.filter solid (clean_text s) = List.filter solid s
  ∧ clean_text s = strip (re_sub_class non_ascii s).
Proof.
  assert (Hsolid_ascii : ∀ c, solid c = true → (c <= 127)%N).
  { intros c [H _]%andb_true_iff. by apply N.leb_le. }
  split; [|split].
  - unfold clean_text. etrans; [apply strip_sublist|].
    etrans; apply re_sub_class_sublist.
  - unfold clean_text. rewrite filter_strip, !filter_re_sub_class; [done|..].
    + intros c Hc. by apply ascii_not_astral, Hsolid_ascii.
    + intros c Hc. by apply ascii_not_non_ascii, Hsolid_ascii.
    + intros c [_ H]%andb_true_iff. by apply negb_true_iff.
  - unfold clean_text. f_equal. unfold re_sub_class.
    induction s as [|c s IH]; [done|]. simpl.
    destruct (astral c) eqn:Ha; simpl.
    + assert (non_ascii c = true) as ->; [|exact IH].
      unfold non_ascii, astral in *. apply andb_true_iff in Ha as [Ha _].
      apply N.leb_le in Ha. apply negb_true_iff, N.leb_gt. lia.
    + by rewrite IH.
Qed.

End CleanTextKeeps.

Section RateLimitSignal.
Import Pull.

Lemma startswith_iff (s sub : str) :
  startswith s sub = true ↔ ∃ rest, s = sub ++ rest.
Proof.
  revert s. induction sub as [|a sub IH]; intros s.
  - split; [by exists s | by destruct s].
  - destruct s as [|b s]; simpl.
    + split; [done | by intros [rest [=]]].
    + rewrite andb_true_iff, IH, N.eqb_eq. split.
      * intros [-> [rest ->]]. by exists rest.
      * intros [rest [= -> ->]]. split; [done | by exists rest].
Qed.

Lemma contains_iff (sub s : str) :
  contains sub s = true ↔ ∃ before after, s = before ++ sub ++ after.
Proof.
  induction s as [|b s IH].
  - simpl. rewrite orb_false_r. destruct sub as [|a sub]; simpl.
    + split; [by exists [], [] | done].
    + split; [done|]. intros (before & after & H). by destruct before.
  - change (contains sub (b :: s))
      with (startswith (b :: s) sub || contains sub s).
    rewrite orb_true_iff, startswith_iff, IH. split.
    + intros [[rest ->]|(before & after & ->)].
      * by exists [], rest.
      * by exists (b :: before), after.
    + intros (before & after & H). destruct before as [|c before].
      * left. by exists after.
      * right. injection H as -> ->. by exists before, after.
Qed.

(** X4. An error counts as a rate-limit signal exactly when its message
    holds "429" or "Too Many Requests" as a contiguous piece, wherever in
    the message. *)
Theorem is_rate_limit_iff (e : exn) :
  is_rate_limit e = true ↔
  ∃ before after,
    exn_msg e = before ++ lit "429" ++ after
    ∨ exn_msg e = before ++ lit "Too Many Requests" ++ after.
Proof.
  unfold is_rate_limit. rewrite orb_true_iff, !contains_iff. split.
  - intros [(b & a & H)|(b & a & H)]; exists b, a; [by left | by right].
  - intros (b & a & [H|H]); [left | right]; by exists b, a.
Qed.

End RateLimitSignal.

Section UserList.
Import Pull.

Lemma truthy_strip_true (s : str) : truthy (strip s) = true → strip s ≠ [].
Proof. by destruct (strip s). Qed.

(** X6. [get_user_list] never raises. Every handle it returns is
    non-empty and has no white space around it; from a readable file it
    returns the lines that are not blank, stripped, in order, and changes
    nothing; from an unreadable one it returns the empty list and logs
    the error. *)
Theorem get_user_list_handles (E : env) (w : world) :
  ∃ users w',
    get_user_list E w = (Val users, w')
    ∧ (∀ u, u ∈ users → u ≠ [] ∧ strip u = u)
    ∧ (∀ lines, user_list_file E = Val lines →
         w' = w ∧ users = strip <$> List.filter (fun line => negb (bool_decide (blank line))) lines)
    ∧ (∀ e, user_list_file E = Exc e →
         users = [] ∧ w' = push [Log (LogNoUserList e)] 0 w).
Proof.
  unfold get_user_list. unfold_eff.
  destruct (user_list_file E) as [lines|e].
  - eexists _, _. split; [reflexivity|]. split; [|split].
    + intros u (line & -> & Hline)%list_elem_of_fmap.
      apply list_elem_of_In, List.filter_In in Hline as [_ Hline].
      split; [by apply truthy_strip_true | apply strip_idemp].
    + intros lines' [= <-]. split; [done|]. f_equal.
      apply List.filter_ext. intros line. apply truthy_strip.
    + by intros e.
  - eexists _, _. split; [reflexivity|]. split; [|split].
    + intros u Hu. by apply elem_of_nil in Hu.
    + by intros lines.
    + by intros e' [= <-].
Qed.

End UserList.

Section SafeRequestSound.
Import Pull.
Context (E : env) (req : request).

(** Every turn of the loop is one call; the loop stops at the first
    answer, at the first error that is no rate-limit signal, or when the
    attempts are used up. *)
Lemma safe_request_loop_calls (remaining : nat) : ∀ attempt delay w,
  ∃ j,
    j ≤ remaining
    ∧ calls (safe_request_loop (api E req) remaining attempt delay w).2
      = calls w ++ replicate j req
    ∧ (∀ v, (safe_request_loop (api E req) remaining attempt delay w).1 = Val (Some v) →
         ∃ k, j = S k ∧ atproto E (ticks w + k) req = Val v)
    ∧ ((safe_request_loop (api E req) remaining attempt delay w).1 = Val None →
         ∀ k, k < j → ∃ e, atproto E (ticks w + k) req = Exc e)
    ∧ (∀ k, S k < j → rate_limited (atproto E (ticks w + k) req)).
Proof.
  induction remaining as [|remaining IH]; intros attempt delay w.
  - exists 0. split; [done|]. split; [by rewrite app_nil_r|].
    split; [done|]. split; intros; lia.
  - rewrite loop_unfold.
    destruct (atproto E (ticks w) req) as [v|e] eqn:Ho.
    + rewrite (attempt_once_val E req _ _ _ v Ho). cbv beta iota. cbn [fst snd]. exists 1.
      split; [lia|]. split; [by rewrite calls_push|]. split; [|split].
      * intros v' [= <-]. exists 0. by rewrite Nat.add_0_r.
      * done.
      * intros; lia.
    + destruct (is_rate_limit e) eqn:Hr.
      * rewrite (attempt_once_rate_limit E req _ _ _ e Ho Hr). cbv beta iota.
        set (w' := push _ 1 w).
        destruct (IH (S attempt) (next_delay delay) w') as (j & Hj & Hc & Hv & Hn & Hl).
        assert (Hshift : ∀ k, ticks w' + k = ticks w + S k) by (intros; simpl; lia).
        exists (S j). split; [lia|]. split; [|split; [|split]].
        -- rewrite Hc. subst w'. rewrite calls_push. simpl.
           by rewrite <- app_assoc.
        -- intros v Hres. destruct (Hv v Hres) as (k & -> & Hk).
           exists (S k). split; [done|]. by rewrite <- Hshift.
        -- intros Hres [|k] Hk.
           ++ exists e. by rewrite Nat.add_0_r.
           ++ rewrite <- Hshift. apply Hn; [done | lia].
        -- intros [|k] Hk.
           ++ exists e. by rewrite Nat.add_0_r.
           ++ rewrite <- Hshift. apply Hl. lia.
      * rewrite (attempt_once_error E req _ _ _ e Ho Hr). cbv beta iota. cbn [fst snd].
        exists 1.
        split; [lia|]. split; [by rewrite calls_push|]. split; [|split].
        -- done.
        -- intros _ k Hk. assert (k = 0) as -> by lia. exists e. by rewrite Nat.add_0_r.
        -- intros; lia.
Qed.

End SafeRequestSound.

(** X5. Whatever the network does, [safe_request] makes at most
    [max_retries] calls, all of them the request it was given; an answer
    it returns is the answer the network gave to the last of these calls;
    it returns no result only if every call made failed; every call but
    the last hit the rate limit; and it leaves the state file and the
    sink alone. *)
Theorem safe_request_sound (E : env) (req : request) (max_retries : nat)
    (initial_delay : Z) (w : world) :
  let run := Pull.safe_request (Pull.api E req) max_retries initial_delay w in
  ∃ j,
    j ≤ max_retries
    ∧ calls run.2 = calls w ++ replicate j req
    ∧ (∀ v, run.1 = Val (Some v) → ∃ k, j = S k ∧ atproto E (ticks w + k) req = Val v)
    ∧ (run.1 = Val None → ∀ k, k < j → ∃ e, atproto E (ticks w + k) req = Exc e)
    ∧ (∀ k, S k < j → rate_limited (atproto E (ticks w + k) req))
    ∧ durable run.2 = durable w.
Proof.
  intros run.
  destruct (safe_request_loop_calls E req max_retries 0 initial_delay w)
    as (j & Hj & Hc & Hv & Hn & Hl).
  exists j. repeat split; try done.
  apply (durable_safe_request (Pull.api E req) max_retries initial_delay (durable_api E req) w).
Qed.

(** ** What fetching asks of the classifier *)

Section Quiet.
Import Pull.
Context {B : Type} (f : event → option B).

Lemma project_tick : preserves (project f) tick.
Proof. by intros w. Qed.

Lemma project_emit (e : event) : f e = None → preserves (project f) (emit e).
Proof. intros H w. unfold project, emit. simpl. by rewrite H. Qed.

Hypothesis Hcall : ∀ r, f (Call r) = None.
Hypothesis Hsleep : ∀ s, f (Sleep s) = None.
Hypothesis Hlog : ∀ m, f (Log m) = None.

Lemma project_safe_request (E : env) (req : request) (max_retries : nat)
    (initial_delay : Z) :
  preserves (project f) (safe_request (api E req) max_retries initial_delay).
Proof.
  assert (Hapi : preserves (project f) (api E req)).
  { unfold api. apply preserves_bind; [apply project_tick|]. intros n.
    apply preserves_bind; [by apply project_emit|]. intros _. apply preserves_lift. }
  unfold safe_request. generalize 0 as attempt. revert initial_delay.
  induction max_retries as [|n IH]; intros delay attempt; simpl.
  - apply preserves_ret.
  - apply preserves_bind.
    + unfold attempt_once. apply preserves_try_except.
      * apply preserves_bind; [exact Hapi|]. intros r.
        apply preserves_bind; [by apply project_emit|]. intros _. apply preserves_ret.
      * intros e. destruct (is_rate_limit e).
        -- apply preserves_bind; [by apply project_emit|]. intros _.
           apply preserves_bind; [by apply project_emit|]. intros _. apply preserves_ret.
        -- apply preserves_bind; [by apply project_emit|]. intros _. apply preserves_ret.
    + intros [r|d|]; [apply preserves_ret | apply IH | apply preserves_ret].
Qed.

End Quiet.

Section FeedSummary.
Import Pull.
Context (E : env).

Lemma row_of_clean (handle : str) (r : row) (raw : str) :
  row_handle r = handle → row_text r = clean_text raw → row_of handle r.
Proof.
  intros Hh Ht. unfold row_of. rewrite Ht. split; [done|].
  split; [apply clean_text_ascii | apply strip_idemp].
Qed.

Lemma chats_log_only (es : list event) :
  (∀ e, e ∈ es → ∃ x, e = Log (PrintCategorizationFailed x)) →
  omap (fun e => match e with Chat p => Some p | _ => None end) es = [].
Proof.
  induction es as [|e es IH]; [done|]. intros Hes.
  destruct (Hes e) as [x ->]; [left|]. simpl. apply IH.
  intros e' He'. apply Hes. by right.
Qed.

(** One item adds the row of a kept post, after one request to the
    classifier with the text of that row, or adds nothing and asks
    nothing. *)
Lemma process_item_summary (handle : str) (idx : nat) (p : feed_view_post)
    (rows : list row) (w : world) :
  ∃ added w',
    process_item E handle idx p rows w = (Val (rows ++ added), w')
    ∧ chats w' = chats w ++ ((Categorize.prompt ∘ row_text) <$> added)
    ∧ Forall (row_of handle) added
    ∧ row_uri <$> added = (uri ∘ post) <$> List.filter kept [p].
Proof.
  destruct (kept p) eqn:Hk.
  - pose proof Hk as Hk'. apply kept_true in Hk' as (Hr & Hp & raw & Ht & Hb).
    destruct (process_post_plain E handle p raw rows w Hr Hp Ht Hb)
      as (category & controversy & es & Hrun & Hes).
    eexists [_], _. split; [by apply process_item_val|].
    split; [|split].
    + rewrite chats_push, omap_app, (chats_log_only es Hes). done.
    + constructor; [|constructor]. by eapply row_of_clean.
    + simpl. by rewrite Hk.
  - assert (Hnone : ∀ w', chats w' = chats w →
              process_item E handle idx p rows w = (Val rows, w') →
              ∃ added w',
                process_item E handle idx p rows w = (Val (rows ++ added), w')
                ∧ chats w' = chats w ++ ((Categorize.prompt ∘ row_text) <$> added)
                ∧ Forall (row_of handle) added
                ∧ row_uri <$> added = (uri ∘ post) <$> List.filter kept [p]).
    { intros w' Hc Hrun. exists [], w'. rewrite !app_nil_r. split; [done|].
      split; [done|]. split; [constructor|]. simpl. by rewrite Hk. }
    destruct (decide (is_repost p)) as [Hr|Hr].
    { apply (Hnone w); [done|]. by apply process_item_val, process_post_repost. }
    destruct (decide (is_Some (reply (record (post p))) ∧ reply (record (post p)) ≠ Some None))
      as [Hp|Hp].
    { apply (Hnone w); [done|]. apply process_item_val, process_post_reply.
      destruct Hp as [[[parent|] Hx] Hne]; [by exists parent | done]. }
    destruct (text (record (post p))) as [[raw|]|] eqn:Ht.
    + destruct (decide (blank raw)) as [Hb|Hb].
      * apply (Hnone w); [done|]. by eapply process_item_val, process_post_blank.
      * exfalso. apply not_true_iff_false in Hk. apply Hk, kept_true.
        split; [done|]. split; [|by exists raw].
        intros [parent Hparent]. apply Hp. by rewrite Hparent.
    + eapply Hnone; [|unfold process_item, process_post, try_except;
        rewrite (bool_decide_false _ Hr), (bool_decide_false _ Hp), Ht;
        unfold_eff; reflexivity].
      done.
    + apply (Hnone w); [done|]. unfold process_item, process_post, try_except.
      by rewrite (bool_decide_false _ Hr), (bool_decide_false _ Hp), Ht.
Qed.

Lemma process_feed_summary (handle : str) (items : list feed_view_post) :
  ∀ idx rows w, ∃ added w',
    process_feed E handle idx items rows w = (Val (rows ++ added), w')
    ∧ chats w' = chats w ++ ((Categorize.prompt ∘ row_text) <$> added)
    ∧ Forall (row_of handle) added
    ∧ row_uri <$> added = (uri ∘ post) <$> List.filter kept items.
Proof.
  induction items as [|p items IH]; intros idx rows w.
  - exists [], w. rewrite !app_nil_r. by repeat split.
  - simpl process_feed. unfold mbind, M_bind.
    destruct (process_item_summary handle idx p rows w)
      as (a1 & w1 & Hrun & Hc1 & Hf1 & Hu1).
    rewrite Hrun.
    destruct (IH (S idx) (rows ++ a1) w1) as (a2 & w2 & Hfeed & Hc2 & Hf2 & Hu2).
    exists (a1 ++ a2), w2. split; [by rewrite app_assoc|]. split; [|split].
    + by rewrite Hc2, Hc1, fmap_app, app_assoc.
    + by apply Forall_app.
    + rewrite fmap_app, Hu1, Hu2. simpl List.filter.
      destruct (kept p); simpl; [done|done].
Qed.

Lemma chats_safe_request (req : request) (n : nat) (d : Z) (w : world) :
  chats (safe_request (api E req) n d w).2 = chats w.
Proof. unfold chats. by apply project_safe_request. Qed.

Lemma chats_log (m : log_msg) (w : world) : chats (log m w).2 = chats w.
Proof. done. Qed.

(** All of [get_posts_for_user] at once. *)
Lemma get_posts_for_user_summary (handle : str) (w : world) :
  ∃ rows w',
    get_posts_for_user E handle w = (Val rows, w')
    ∧ chats w' = chats w ++ ((Categorize.prompt ∘ row_text) <$> rows)
    ∧ Forall (row_of handle) rows.
Proof.
  unfold get_posts_for_user. unfold mbind at 1, M_bind at 1.
  pose proof (chats_safe_request (ResolveHandle handle) default_max_retries
                default_initial_delay w) as Hc1.
  destruct (safe_request_loop_returns (api E (ResolveHandle handle))
              default_max_retries 0 default_initial_delay w) as [profile Hp].
  unfold safe_request in *.
  destruct (safe_request_loop _ _ _ _ w) as [o w1]. simpl in Hp, Hc1. subst o.
  destruct (profile ≫= did) as [d|].
  2:{ eexists [], _. split; [reflexivity|]. rewrite app_nil_r.
      split; [|constructor]. by rewrite <- Hc1. }
  unfold mbind at 1, M_bind at 1, log at 1, emit at 1. cbv beta iota.
  unfold mbind at 1, M_bind at 1.
  match goal with |- context [safe_request_loop ?f ?n ?a ?dl ?w'] =>
    pose proof (chats_safe_request (GetAuthorFeed d (POST_LIMIT E)) n dl w') as Hc2;
    destruct (safe_request_loop_returns f n a dl w') as [fd Hf];
    unfold safe_request in Hc2;
    destruct (safe_request_loop f n a dl w') as [o w2] end.
  simpl in Hf, Hc2. subst o.
  assert (Hc : chats w2 = chats w) by (rewrite Hc2, <- Hc1; done).
  destruct (fd ≫= feed) as [items|].
  2:{ eexists [], _. split; [reflexivity|]. rewrite app_nil_r.
      split; [|constructor]. by rewrite <- Hc. }
  destruct (process_feed_summary handle items 1 [] w2) as (rows & w3 & Hrun & Hc3 & Hf3 & _).
  exists rows, w3. split; [done|]. split; [by rewrite Hc3, Hc | done].
Qed.

End FeedSummary.

Section FetchTheorems.
Import Pull.

(** X7. [get_posts_for_user] never raises, whatever the network and the
    classifier do; every row it returns carries the handle asked for and
    a text of ASCII characters only with no white space around it; and
    fetching leaves the state file and the sink alone. *)
Theorem fetched_rows_well_formed (E : env) (handle : str) (w : world) :
  ∃ rows w',
    get_posts_for_user E handle w = (Val rows, w')
    ∧ Forall (fun r => row_handle r = handle
                       ∧ ascii_only (row_text r)
                       ∧ strip (row_text r) = row_text r) rows
    ∧ durable w' = durable w.
Proof.
  destruct (get_posts_for_user_summary E handle w) as (rows & w' & Hrun & _ & Hrows).
  exists rows, w'. split; [done|]. split; [exact Hrows|].
  pose proof (durable_get_posts_for_user E handle w) as Hd. by rewrite Hrun in Hd.
Qed.

(** X9. Fetching a user asks the classifier exactly once for each row
    returned, in the order of the rows, with the prompt around the text
    of that row; a feed item that gives no row costs no request. *)
Theorem one_classification_per_row (E : env) (handle : str) (w : world) :
  ∃ rows w',
    get_posts_for_user E handle w = (Val rows, w')
    ∧ chats w' = chats w ++ ((Categorize.prompt ∘ row_text) <$> rows).
Proof.
  destruct (get_posts_for_user_summary E handle w) as (rows & w' & Hrun & Hc & _).
  by exists rows, w'.
Qed.

Lemma logs_log (m : log_msg) (w : world) : logs (log m w).2 = logs w ++ [m].
Proof. unfold logs, project. simpl. by rewrite reverse_cons. Qed.

Lemma calls_log (m : log_msg) (w : world) : calls (log m w).2 = calls w.
Proof. done. Qed.

(** X8. When the resolution of a handle never gives an identifier (each
    attempt fails, or answers with an object without [did]), the user has
    no rows: only resolution requests were made, at most five, no feed
    was asked for, the classifier was not called, and the last log line
    says that the identifier could not be resolved. *)
Theorem unresolved_handle_fetches_nothing (E : env) (handle : str) (w : world) :
  (∀ n, match atproto E n (ResolveHandle handle) with
        | Val profile => did profile = None
        | Exc _ => True
        end) →
  ∃ j w',
    get_posts_for_user E handle w = (Val [], w')
    ∧ j ≤ default_max_retries
    ∧ calls w' = calls w ++ replicate j (ResolveHandle handle)
    ∧ last (logs w') = Some (LogNoDid handle)
    ∧ chats w' = chats w.
Proof.
  intros Hnone.
  destruct (safe_request_loop_calls E (ResolveHandle handle) default_max_retries 0
              default_initial_delay w) as (j & Hj & Hc & Hv & _).
  pose proof (chats_safe_request E (ResolveHandle handle) default_max_retries
                default_initial_delay w) as Hch.
  destruct (safe_request_loop_returns (api E (ResolveHandle handle))
              default_max_retries 0 default_initial_delay w) as [profile Hp].
  unfold get_posts_for_user. unfold mbind at 1, M_bind at 1. unfold safe_request in *.
  destruct (safe_request_loop _ _ _ _ w) as [o w1]. simpl in Hp, Hc, Hv, Hch. subst o.
  assert (Hdid : profile ≫= did = None).
  { destruct profile as [v|]; [|done]. destruct (Hv v eq_refl) as (k & _ & Hk).
    specialize (Hnone (ticks w + k)). by rewrite Hk in Hnone. }
  rewrite Hdid. exists j, (log (LogNoDid handle) w1).2.
  split; [reflexivity|]. split; [done|]. split; [by rewrite calls_log|].
  split; [by rewrite logs_log, last_snoc | by rewrite <- Hch].
Qed.

(** The theorem on a network that knows no handle. *)
Lemma unresolved_handle_fetches_nothing_witness :
  ∃ j w',
    get_posts_for_user env_unknown_handle (lit "alice.test") (Scenario.start Missing)
    = (Val [], w')
    ∧ j ≤ default_max_retries
    ∧ calls w' = calls (Scenario.start Missing) ++ replicate j (ResolveHandle (lit "alice.test"))
    ∧ last (logs w') = Some (LogNoDid (lit "alice.test"))
    ∧ chats w' = chats (Scenario.start Missing).
Proof.
  apply (unresolved_handle_fetches_nothing env_unknown_handle (lit "alice.test")
           (Scenario.start Missing)).
  intros n. exact I.
Defined.

End FetchTheorems.

(** ** A whole run *)

Section RunInvariant.
Import Pull.
Context (E : env).

Lemma filter_new_kept_uris (rows : list row) : ∀ seen : gset str,
  seen ∪ list_to_set (row_uri <$> (filter_new rows [] seen).1)
  = seen ∪ list_to_set (row_uri <$> rows).
Proof.
  induction rows as [|r rows IH]; intros seen; [done|].
  rewrite filter_new_cons. case_bool_decide as Hr; simpl.
  - specialize (IH ({[row_uri r]} ∪ seen)). set_solver.
  - rewrite IH. set_solver.
Qed.

Lemma sink_calls_durable (w w' : world) :
  durable w' = durable w → sink_calls w' = sink_calls w.
Proof. intros [= _ H]. by rewrite !sink_calls_outward, H. Qed.

Lemma sink_calls_push (es : list event) (n : nat) (w : world) :
  sink_calls (push es n w)
  = sink_calls w
    ++ reverse (omap (fun e => match e with Append rows => Some rows | _ => None end) es).
Proof. apply project_push. Qed.

Lemma load_durable (w w' : world) :
  durable w' = durable w →
  (load_existing_post_uris w').1 = (load_existing_post_uris w).1.
Proof. intros [= H _]. by apply load_file_only. Qed.

(** One user: what is sent is new, and the state file follows the set. *)
Lemma process_user_general (user : str) (seen : gset str) (w : world) :
  (load_existing_post_uris w).1 = Val seen →
  ∃ new_rows w2,
    process_user E user seen w = (Val (seen ∪ list_to_set (row_uri <$> new_rows)), w2)
    ∧ sink_calls w2 = sink_calls w ++ (match new_rows with [] => [] | _ => [new_rows] end)
    ∧ NoDup (row_uri <$> new_rows)
    ∧ (∀ r, r ∈ new_rows → (row_uri r ∉ seen) ∧ row_of user r)
    ∧ (load_existing_post_uris w2).1 = Val (seen ∪ list_to_set (row_uri <$> new_rows)).
Proof.
  intros Hload.
  destruct (get_posts_for_user_summary E user w) as (rows & w1 & Hrows & _ & Hwf).
  pose proof (durable_get_posts_for_user E user w) as Hd. rewrite Hrows in Hd.
  cbn [snd] in Hd.
  exists (filter_new rows [] seen).1.
  rewrite (process_user_run E user seen w w1 rows Hrows).
  rewrite filter_new_updated, filter_new_kept_uris.
  eexists. split; [reflexivity|].
  assert (Hfacts : NoDup (row_uri <$> (filter_new rows [] seen).1)
            ∧ ∀ r, r ∈ (filter_new rows [] seen).1 → (row_uri r ∉ seen) ∧ row_of user r).
  { split; [apply filter_new_NoDup|]. intros r Hr. split; [by eapply filter_new_fresh|].
    rewrite Forall_forall in Hwf. apply Hwf.
    eapply elem_of_sublist; [exact Hr | apply filter_new_sublist]. }
  destruct Hfacts as [Hnd Hfresh].
  pose proof (filter_new_nil rows seen) as Hnil.
  destruct (filter_new rows [] seen).1 as [|r rs] eqn:Hnew.
  - split; [|split; [done|split; [done|]]].
    + rewrite sink_calls_push. simpl. rewrite !app_nil_r.
      by apply sink_calls_durable.
    + replace (seen ∪ list_to_set (row_uri <$> rows)) with seen
        by (pose proof (proj1 Hnil eq_refl); set_solver).
      rewrite <- Hload. apply load_file_only. simpl. by injection Hd.
  - split; [|split; [done|split; [done|]]].
    + unfold sink_calls, project. cbn [trace]. rewrite !omap_app, !reverse_app.
      fold (project (fun e => match e with Append rows => Some rows | _ => None end) w1).
      fold (sink_calls w1). by rewrite (sink_calls_durable w w1 Hd).
    + cbv zeta. by rewrite (load_dump _ (seen ∪ list_to_set (row_uri <$> rows))).
Qed.

(** The loop over the users: the batches sent hold new URIs only, each
    once, and at the end the state file holds the set it started from
    and the URIs sent. *)
Lemma for_users_general (users : list str) : ∀ seen w,
  (load_existing_post_uris w).1 = Val seen →
  ∃ batches w',
    for_users E users seen w
    = (Val (seen ∪ list_to_set (row_uri <$> concat batches)), w')
    ∧ sink_calls w' = sink_calls w ++ batches
    ∧ Forall (fun batch => batch ≠ []) batches
    ∧ NoDup (row_uri <$> concat batches)
    ∧ (∀ r, r ∈ concat batches →
         (row_uri r ∉ seen) ∧ ∃ user, user ∈ users ∧ row_of user r)
    ∧ (load_existing_post_uris w').1
      = Val (seen ∪ list_to_set (row_uri <$> concat batches)).
Proof.
  induction users as [|user users IH]; intros seen w Hload.
  - exists [], w. simpl. rewrite union_empty_r_L.
    split; [done|]. split; [symmetry; apply app_nil_r|]. split; [constructor|].
    split; [constructor|].
    split; [|done]. intros r Hr. by apply elem_of_nil in Hr.
  - simpl for_users. unfold mbind, M_bind.
    destruct (process_user_general user seen w Hload)
      as (new_rows & w2 & Hrun & Hsink & Hnd & Hnew & Hload2).
    rewrite Hrun.
    destruct (IH _ w2 Hload2) as (batches & w' & Hfor & Hsink' & Hne & Hnd' & Hrest & Hload').
    exists ((match new_rows with [] => [] | _ => [new_rows] end) ++ batches), w'.
    assert (Hcat : concat ((match new_rows with [] => [] | _ => [new_rows] end) ++ batches)
                   = new_rows ++ concat batches).
    { by destruct new_rows. }
    rewrite Hcat, fmap_app, list_to_set_app_L, (assoc_L (∪)).
    split; [done|]. split; [by rewrite Hsink', Hsink, app_assoc|].
    split; [|split; [|split; [|done]]].
    + apply Forall_app. split; [|done]. destruct new_rows; by repeat constructor.
    + apply NoDup_app. split; [done|]. split; [|done].
      intros u Hu (r & -> & Hr)%list_elem_of_fmap.
      destruct (Hrest r Hr) as [Hfresh _]. apply Hfresh.
      apply elem_of_union_r, elem_of_list_to_set. exact Hu.
    + intros r [Hr|Hr]%elem_of_app.
      * destruct (Hnew r Hr) as [Hf Hwf]. split; [done|]. exists user. split; [left | done].
      * destruct (Hrest r Hr) as [Hf (u & Hu & Hwf)]. split; [set_solver|].
        exists u. split; [by right | done].
Qed.

(** The login, with the calls it makes. *)
Lemma main_after_login_calls (w : world) :
  ∃ j w1,
    main E w = after_login E w1
    ∧ j ≤ default_max_retries
    ∧ calls w1 = calls w ++ replicate j (Login (USERNAME E) (PASSWORD E))
    ∧ durable w1 = durable w.
Proof.
  unfold main. unfold mbind at 1, M_bind at 1, try_except at 1.
  unfold mbind at 1, M_bind at 1, log at 1, emit at 1. cbv beta iota.
  unfold mbind at 1, M_bind at 1.
  set (w' := {| ticks := ticks w; trace := Log LogLoggingIn :: trace w;
                scraped_posts := scraped_posts w |}).
  pose proof (durable_safe_request (api E (Login (USERNAME E) (PASSWORD E)))
                default_max_retries default_initial_delay (durable_api E _) w') as Hd.
  destruct (safe_request_loop_calls E (Login (USERNAME E) (PASSWORD E))
              default_max_retries 0 default_initial_delay w') as (j & Hj & Hc & _).
  destruct (safe_request_loop_returns (api E (Login (USERNAME E) (PASSWORD E)))
              default_max_retries 0 default_initial_delay w') as [r Hr].
  unfold safe_request in *.
  destruct (safe_request_loop _ _ _ _ w') as [o w1]. simpl in Hr, Hd, Hc. subst o.
  exists j, w1. split; [reflexivity|]. split; [done|]. split; [exact Hc|].
  rewrite Hd. reflexivity.
Qed.

Lemma get_user_list_world (w : world) :
  ∃ w', get_user_list E w = (Val (user_list E), w')
        ∧ calls w' = calls w ∧ durable w' = durable w.
Proof.
  unfold get_user_list, user_list. unfold_eff.
  destruct (user_list_file E) as [lines|e]; by eauto.
Qed.

End RunInvariant.

Section RunTheorems.
Import Pull.

(** X11. From a state file that loads as the set [seen], a run always
    ends normally, whatever the network, the classifier and the sink do.
    No batch given to the sink is empty; over the whole run no URI is
    given to the sink twice and none that was in [seen]; every row given
    to the sink belongs to a user of the list and has an ASCII text; and
    the state file left behind loads as [seen] with the URIs of exactly
    the rows given to the sink. *)
Theorem run_sends_each_new_uri_once (E : env) (w0 : world) (seen : gset str) :
  (load_existing_post_uris w0).1 = Val seen →
  ∃ batches w1,
    main E w0 = (Val tt, w1)
    ∧ sink_calls w1 = sink_calls w0 ++ batches
    ∧ Forall (fun batch => batch ≠ []) batches
    ∧ NoDup (row_uri <$> concat batches)
    ∧ (∀ r, r ∈ concat batches →
         (row_uri r ∉ seen)
         ∧ row_handle r ∈ user_list E
         ∧ ascii_only (row_text r))
    ∧ (load_existing_post_uris w1).1
      = Val (seen ∪ list_to_set (row_uri <$> concat batches)).
Proof.
  intros Hload.
  destruct (main_after_login_calls E w0) as (j & wl & -> & _ & _ & Hdl).
  unfold after_login. unfold mbind at 1, M_bind at 1.
  destruct (get_user_list_world E wl) as (wu & -> & _ & Hdu).
  rewrite Hdl in Hdu.
  destruct (user_list E) as [|u us] eqn:Hus.
  - exists [], (log LogNoUsers wu).2. split; [reflexivity|].
    assert (Hd : durable (log LogNoUsers wu).2 = durable w0)
      by (by rewrite (durable_log LogNoUsers I wu)).
    split; [rewrite app_nil_r; by apply sink_calls_durable|].
    split; [constructor|]. split; [constructor|].
    split; [intros r Hr; by apply elem_of_nil in Hr|].
    simpl concat. simpl fmap. rewrite list_to_set_nil, union_empty_r_L, <- Hload.
    by apply load_durable.
  - rewrite <- (load_durable w0 wu Hdu) in Hload.
    unfold mbind at 1, M_bind at 1.
    destruct (load_existing_post_uris wu) as [o wu'] eqn:Hl. simpl in Hload. subst o.
    pose proof Hl as Hpure. apply load_pure in Hpure as ->.
    destruct (for_users_general E (u :: us) seen wu) as
      (batches & w' & Hfor & Hsink & Hne & Hnd & Hrows & Hload').
    { by rewrite Hl. }
    unfold mbind at 1, M_bind at 1. rewrite Hfor.
    exists batches, (log LogFinished w').2. split; [reflexivity|].
    split; [|split; [done|split; [done|split]]].
    + change (sink_calls (log LogFinished w').2) with (sink_calls w').
      by rewrite Hsink, (sink_calls_durable w0 wu Hdu).
    + intros r Hr. destruct (Hrows r Hr) as [Hfresh (user & Huser & Hh & Ha & _)].
      split; [done|]. split; [by rewrite Hh | done].
    + rewrite <- Hload'. by apply load_file_only.
Qed.

(** The theorem on the end-to-end scenario, from no state file. *)
Lemma run_sends_each_new_uri_once_witness :
  ∃ batches w1,
    main Scenario.env_ok (Scenario.start Missing) = (Val tt, w1)
    ∧ sink_calls w1 = sink_calls (Scenario.start Missing) ++ batches
    ∧ Forall (fun batch => batch ≠ []) batches
    ∧ NoDup (row_uri <$> concat batches)
    ∧ (∀ r, r ∈ concat batches →
         (row_uri r ∉ (∅ : gset str))
         ∧ row_handle r ∈ user_list Scenario.env_ok
         ∧ ascii_only (row_text r))
    ∧ (load_existing_post_uris w1).1
      = Val (∅ ∪ list_to_set (row_uri <$> concat batches)).
Proof.
  pose proof (run_sends_each_new_uri_once Scenario.env_ok (Scenario.start Missing) ∅) as H.
  apply H. reflexivity.
Defined.

(** X12. With no user in the list, a run ends normally after the login
    attempts and the warning that there is nobody to scrape: it makes no
    request but the login's, calls neither the sink nor the state file,
    and so ends normally even if the state file cannot be read. *)
Theorem no_users_no_work (E : env) (w : world) :
  user_list E = [] →
  ∃ j w',
    main E w = (Val tt, w')
    ∧ j ≤ default_max_retries
    ∧ calls w' = calls w ++ replicate j (Login (USERNAME E) (PASSWORD E))
    ∧ durable w' = durable w
    ∧ last (logs w') = Some LogNoUsers.
Proof.
  intros Hus.
  destruct (main_after_login_calls E w) as (j & wl & -> & Hj & Hc & Hdl).
  unfold after_login. unfold mbind at 1, M_bind at 1.
  destruct (get_user_list_world E wl) as (wu & -> & Hcu & Hdu).
  rewrite Hus. exists j, (log LogNoUsers wu).2.
  split; [reflexivity|]. split; [done|].
  split; [by rewrite calls_log, Hcu|].
  split; [by rewrite (durable_log LogNoUsers I wu), Hdu|].
  by rewrite logs_log, last_snoc.
Qed.

(** The theorem where the user list holds blank lines only and the state
    file cannot be read. *)
Lemma no_users_no_work_witness :
  ∃ j w',
    main env_no_users (Scenario.start (Unreadable permission_denied)) = (Val tt, w')
    ∧ j ≤ default_max_retries
    ∧ calls w' = calls (Scenario.start (Unreadable permission_denied))
                 ++ replicate j (Login (USERNAME env_no_users) (PASSWORD env_no_users))
    ∧ durable w' = durable (Scenario.start (Unreadable permission_denied))
    ∧ last (logs w') = Some LogNoUsers.
Proof.
  apply (no_users_no_work env_no_users (Scenario.start (Unreadable permission_denied))).
  reflexivity.
Defined.

(** X10. With users to scrape and a state file on which
    [load_existing_post_uris] raises, [main] ends with that very
    exception, before any user is fetched: the only requests made are the
    login's, nothing was given to the sink and the state file is as it
    was. *)
Theorem unloadable_state_aborts_before_fetch (E : env) (w : world) (e : exn) :
  user_list E ≠ [] →
  (load_existing_post_uris w).1 = Exc e →
  ∃ j,
    (main E w).1 = Exc e
    ∧ j ≤ default_max_retries
    ∧ calls (main E w).2 = calls w ++ replicate j (Login (USERNAME E) (PASSWORD E))
    ∧ durable (main E w).2 = durable w.
Proof.
  intros Hus Hload.
  destruct (main_after_login_calls E w) as (j & wl & Hm & Hj & Hc & Hdl).
  destruct (get_user_list_world E wl) as (wu & Hg & Hcu & Hdu).
  rewrite Hdl in Hdu.
  rewrite <- (load_durable w wu Hdu) in Hload.
  destruct (load_existing_post_uris wu) as [o wu'] eqn:Hl. simpl in Hload. subst o.
  pose proof Hl as Hpure. apply load_pure in Hpure as ->.
  assert (Hmain : main E w = (Exc e, wu)).
  { rewrite Hm. unfold after_login. unfold mbind at 1, M_bind at 1. rewrite Hg.
    destruct (user_list E) as [|u us]; [done|].
    unfold mbind at 1, M_bind at 1. by rewrite Hl. }
  rewrite Hmain. exists j. cbn [fst snd]. split; [done|]. split; [done|].
  split; [by rewrite Hcu | done].
Qed.

(** The theorem where the state file cannot be read. *)
Lemma unloadable_state_aborts_before_fetch_witness :
  ∃ j,
    (main Scenario.env_ok (Scenario.start (Unreadable permission_denied))).1
    = Exc permission_denied
    ∧ j ≤ default_max_retries
    ∧ calls (main Scenario.env_ok (Scenario.start (Unreadable permission_denied))).2
      = calls (Scenario.start (Unreadable permission_denied))
        ++ replicate j (Login (USERNAME Scenario.env_ok) (PASSWORD Scenario.env_ok))
    ∧ durable (main Scenario.env_ok (Scenario.start (Unreadable permission_denied))).2
      = durable (Scenario.start (Unreadable permission_denied)).
Proof.
  apply (unloadable_state_aborts_before_fetch Scenario.env_ok
           (Scenario.start (Unreadable permission_denied)) permission_denied).
  - by vm_compute.
  - reflexivity.
Defined.

End RunTheorems.

Section SafeRequestWaits.
Import Pull.
Context (E : env) (req : request).

Lemma safe_request_loop_slept (remaining : nat) : ∀ attempt delay w,
  ∃ k,
    k + length (pacing (safe_request_loop (api E req) remaining attempt delay w).1)
      ≤ remaining
    ∧ slept (safe_request_loop (api E req) remaining attempt delay w).2
      = slept w ++ ((fun i => Nat.iter i next_delay delay) <$> seq 0 k)
        ++ pacing (safe_request_loop (api E req) remaining attempt delay w).1.
Proof.
  induction remaining as [|remaining IH]; intros attempt delay w.
  - exists 0. split; [done|]. simpl. by rewrite app_nil_r.
  - rewrite loop_unfold.
    destruct (atproto E (ticks w) req) as [v|e] eqn:Ho.
    + rewrite (attempt_once_val E req _ _ _ v Ho). cbv beta iota. cbn [fst snd].
      exists 0. split; [simpl; lia|]. by rewrite slept_push.
    + destruct (is_rate_limit e) eqn:Hr.
      * rewrite (attempt_once_rate_limit E req _ _ _ e Ho Hr). cbv beta iota.
        set (w' := push _ 1 w).
        destruct (IH (S attempt) (next_delay delay) w') as (k & Hk & Hs).
        exists (S k). split; [lia|]. rewrite Hs. subst w'. rewrite slept_push.
        simpl. rewrite <- !app_assoc. simpl. do 3 f_equal.
        rewrite <- fmap_S_seq, <- list_fmap_compose.
        apply list_fmap_ext. intros _ i _. unfold compose. by rewrite Nat.iter_succ_r.
      * rewrite (attempt_once_error E req _ _ _ e Ho Hr). cbv beta iota. cbn [fst snd].
        exists 0. split; [simpl; lia|]. rewrite slept_push. simpl. by rewrite !app_nil_r.
Qed.

End SafeRequestWaits.

(** X13. Whatever the network does, the waits of one [safe_request] are
    [k] backoff waits, the initial delay and then its doubles capped at
    120 seconds, followed by the pacing delay exactly when an answer is
    returned, with [k] and the pacing wait together within
    [max_retries]. With the defaults, one request waits 155 seconds at
    most. *)
Theorem safe_request_waits (E : env) (req : request) (max_retries : nat)
    (initial_delay : Z) (w : world) :
  let run := Pull.safe_request (Pull.api E req) max_retries initial_delay w in
  ∃ k,
    k + length (pacing run.1) ≤ max_retries
    ∧ slept run.2 = slept w ++ (backoff initial_delay <$> seq 0 k) ++ pacing run.1
    ∧ (max_retries = Pull.default_max_retries →
       initial_delay = Pull.default_initial_delay →
       (foldr Z.add 0 ((backoff initial_delay <$> seq 0 k) ++ pacing run.1) <= 155)%Z).
Proof.
  intros run.
  destruct (safe_request_loop_slept E req max_retries 0 initial_delay w) as (k & Hk & Hs).
  change (Pull.safe_request_loop (Pull.api E req) max_retries 0 initial_delay w)
    with run in Hk, Hs.
  exists k. split; [done|]. split; [by rewrite <- backoff_waits|].
  intros -> ->. unfold Pull.default_max_retries in Hk.
  unfold pacing in *. destruct run.1 as [[v|]|e]; simpl in Hk;
    destruct k as [|[|[|[|[|[|k]]]]]]; try lia; by vm_compute.
Qed.
